(** * FYS1120 computational essays: the lightning and the HCl notebooks

    A shallow embedding of the two simulation notebooks of the repository,
    [2D_Lightning_F2021.ipynb] (relaxation solver and path growth) and the
    polar-diatomic-molecule notebook (spring and Coulomb forces integrated
    with Euler-Cromer), with the properties of their loops.

    Numbers are IEEE-754 binary64 values, as numpy's [float64] and
    Python's [float] are: the kernel's primitive floats.  Python exceptions
    are results of an error monad.  numpy arrays are records of a shape and
    the row-major list of their entries.  What the source leaves to a
    library whose rounding it does not fix is a parameter: the power of
    the growth rule, and the BLAS product under the norm of a
    one-dimensional array. *)

From Stdlib Require Import ZArith Floats Uint63.
From stdpp Require Import base list.

Set Warnings "-inexact-float".
Set Default Proof Using "Type".

(** ** Python exceptions *)

Inductive exn := ZeroDivisionError | ValueError | IndexError.

Inductive result (A : Type) :=
  | Ok (a : A)
  | Raise (e : exn).
Arguments Ok {A} a.
Arguments Raise {A} e.

#[global] Instance result_ret : MRet result := @Ok.
#[global] Instance result_bind : MBind result := λ A B f m,
  match m with
  | Ok a => f a
  | Raise e => Raise e
  end.

(** [for i in range(start, start + n): s = body(i, s)], stopping at the
    first exception. *)
Fixpoint for_from {St : Type} (start n : nat)
    (body : nat → St → result St) (s : St) : result St :=
  match n with
  | 0 => Ok s
  | S n' => s' ← body start s; for_from (S start) n' body s'
  end.

Definition for_range {St : Type} (n : nat)
    (body : nat → St → result St) (s : St) : result St :=
  for_from 0 n body s.

(** ** Floats *)

#[global] Instance float_inhabited : Inhabited float := populate 0%float.

(** Python's [a / b] on floats raises on a zero divisor. *)
Definition py_div (a b : float) : result float :=
  if (b =? 0)%float then Raise ZeroDivisionError else Ok (a / b)%float.

(** [pot = 0.0; for v in vals: pot = pot + v] *)
Definition fsum (vals : list float) : float :=
  foldl (λ acc v, (acc + v)%float) 0%float vals.

(** [ncount = 0.0; for v in vals: ncount = ncount + 1.0] *)
Definition fcount (vals : list float) : float :=
  foldl (λ acc _, (acc + 1)%float) 0%float vals.

(** The fused multiply-add [x*y + z], rounded once: the exact product of
    two finite numbers is added to [z] by the addition of the
    specification, which rounds the exact sum. *)
Definition SFfma (x y z : spec_float) : spec_float :=
  match x, y with
  | S754_finite sx mx ex, S754_finite sy my ey =>
      match z with
      | S754_nan => S754_nan
      | S754_infinity _ => z
      | S754_zero _ => SFmul prec emax x y
      | S754_finite _ _ _ =>
          SFadd prec emax (S754_finite (xorb sx sy) (mx * my) (ex + ey)) z
      end
  | _, _ => SFadd prec emax (SFmul prec emax x y) z
  end.

Definition fma (x y z : float) : float :=
  SF2Prim (SFfma (Prim2SF x) (Prim2SF y) (Prim2SF z)).

(** The float of a Python [int] that is not negative (exact below 2^53). *)
Definition float_of_nat (n : nat) : float :=
  PrimFloat.of_uint63 (Uint63.of_Z (Z.of_nat n)).

(** The real value of a finite float in units of 2^-1074, the smallest
    positive float: an integer. *)
Definition exact (f : float) : Z :=
  match Prim2SF f with
  | S754_finite s m e =>
      let a := (Z.pos m * 2 ^ (e + 1074))%Z in if s then (- a)%Z else a
  | _ => 0%Z
  end.

(** ** Two-dimensional numpy arrays *)

Record ndarray := NdArray {
  shape0 : nat;
  shape1 : nat;
  data : list float
}.

Definition wf (a : ndarray) : Prop := length (data a) = shape0 a * shape1 a.

Definition same_shape (a b : ndarray) : Prop :=
  shape0 a = shape0 b ∧ shape1 a = shape1 b.

(** [a[ix, iy]] *)
Definition aget (a : ndarray) (ix iy : nat) : float :=
  data a !!! (ix * shape1 a + iy).

(** [a[ix, iy] = v] *)
Definition aset (a : ndarray) (ix iy : nat) (v : float) : ndarray :=
  NdArray (shape0 a) (shape1 a) (<[ix * shape1 a + iy := v]> (data a)).

(** Entrywise operations on arrays of one shape. *)
Definition amap (f : float → float) (a : ndarray) : ndarray :=
  NdArray (shape0 a) (shape1 a) (f <$> data a).

Definition amap2 (f : float → float → float) (a b : ndarray) : ndarray :=
  NdArray (shape0 a) (shape1 a) (zip_with f (data a) (data b)).

(** [np.argmax(a, axis=None)] over the row-major entries: the first nan if
    there is one, else the first entry that no other exceeds.  The scan
    replaces the running maximum [mp] by an entry [x] unless [x <= mp], and
    stops at a nan. *)
Fixpoint argmax_go (mp : float) (max_ind i : nat) (l : list float) : nat :=
  if is_nan mp then max_ind
  else match l with
       | [] => max_ind
       | x :: l' =>
           if negb (x <=? mp)%float
           then argmax_go x i (S i) l'
           else argmax_go mp max_ind (S i) l'
       end.

Definition argmax (l : list float) : result nat :=
  match l with
  | [] => Raise ValueError
  | x :: l' => Ok (argmax_go x 0 1 l')
  end.

(** What [argmax] returns, and what its scan knows of the entries read so
    far: [m] is the entry at [k]; no entry before [k] is nan, and each is
    below [m]; when [m] is no nan, no entry exceeds it. *)
Definition first_max (m : float) (k : nat) (l : list float) : Prop :=
  l !! k = Some m ∧
  (∀ j v, j < k → l !! j = Some v →
    is_nan v = false ∧ (is_nan m = false → (v <? m)%float = true)) ∧
  (is_nan m = false → ∀ j v, l !! j = Some v → (v <=? m)%float = true).

(** [np.unravel_index(k, a.shape)] *)
Definition unravel_index (k : nat) (a : ndarray) : nat * nat :=
  (k / shape1 a, k mod shape1 a).

(** [np.full((Lx, Ly), v)] *)
Definition full (Lx Ly : nat) (v : float) : ndarray :=
  NdArray Lx Ly (replicate (Lx * Ly) v).

(** [a[:, iy] = v] *)
Definition set_column (a : ndarray) (iy : nat) (v : float) : ndarray :=
  foldl (λ a ix, aset a ix iy v) a (seq 0 (shape0 a)).

Module Lightning.

(** *** The relaxation solver, [solvepoisson] *)

(** [z = np.copy(b); z[np.where(np.isnan(b))] = 0.0] *)
Definition nan_to_zero (b : ndarray) : ndarray :=
  NdArray (shape0 b) (shape1 b)
    ((λ x, if is_nan x then 0%float else x) <$> data b).

(** The accumulation of [ncount] and [pot] over the neighbours of a point
    that exist, in the order of the four [if]s. *)
Definition neighbour_sums (z : ndarray) (Lx Ly ix iy : nat) : float * float :=
  let ncount := 0%float in
  let pot := 0%float in
  let '(ncount, pot) :=
    if Nat.ltb 0 ix
    then ((ncount + 1)%float, (pot + aget z (ix - 1) iy)%float)
    else (ncount, pot) in
  let '(ncount, pot) :=
    if Nat.ltb ix (Lx - 1)
    then ((ncount + 1)%float, (pot + aget z (ix + 1) iy)%float)
    else (ncount, pot) in
  let '(ncount, pot) :=
    if Nat.ltb 0 iy
    then ((ncount + 1)%float, (pot + aget z ix (iy - 1))%float)
    else (ncount, pot) in
  let '(ncount, pot) :=
    if Nat.ltb iy (Ly - 1)
    then ((ncount + 1)%float, (pot + aget z ix (iy + 1))%float)
    else (ncount, pot) in
  (ncount, pot).

(** The body of the innermost loop: the assignment to [znew[ix, iy]]. *)
Definition relax_point (b z : ndarray) (Lx Ly ix iy : nat) (znew : ndarray)
  : result ndarray :=
  if is_nan (aget b ix iy) then
    let '(ncount, pot) := neighbour_sums z Lx Ly ix iy in
    v ← py_div pot ncount;
    Ok (aset znew ix iy v)
  else
    Ok (aset znew ix iy (aget z ix iy)).

(** One pass of the two inner loops, writing [znew] and reading [z]. *)
Definition sweep (b z : ndarray) (Lx Ly : nat) (znew : ndarray)
  : result ndarray :=
  for_range Lx (λ ix znew,
    for_range Ly (λ iy znew, relax_point b z Lx Ly ix iy znew) znew) znew.

(** The state of the outer loop is the pair of buffers [(z, znew)]; the
    three assignments at the end of the body swap them. *)
Definition solvepoisson (b : ndarray) (nrep : nat) : result ndarray :=
  let z := nan_to_zero b in
  let znew := z in
  let Lx := shape0 b in
  let Ly := shape1 b in
  '(z, _) ← for_range nrep (λ _ '(z, znew),
      znew ← sweep b z Lx Ly znew;
      let tmp_z := znew in
      let znew := z in
      let z := tmp_z in
      Ok (z, znew)) (z, znew);
  Ok z.

(** *** Jacobi relaxation, as the specification words it *)

(** The in-grid neighbours of a point of an [Lx] by [Ly] grid. *)
Definition neighbours (Lx Ly ix iy : nat) : list (nat * nat) :=
  (if bool_decide (1 ≤ ix) then [(ix - 1, iy)] else []) ++
  (if bool_decide (ix + 1 < Lx) then [(ix + 1, iy)] else []) ++
  (if bool_decide (1 ≤ iy) then [(ix, iy - 1)] else []) ++
  (if bool_decide (iy + 1 < Ly) then [(ix, iy + 1)] else []).

(** The arithmetic mean of a list of values. *)
Definition mean (vals : list float) : float := (fsum vals / fcount vals)%float.

(** The new value of a point: the mean of its neighbours in the previous
    field where [b] is nan, its previous value elsewhere. *)
Definition jacobi_point (b z : ndarray) (ix iy : nat) : float :=
  if is_nan (aget b ix iy)
  then mean ((λ p, aget z p.1 p.2) <$> neighbours (shape0 b) (shape1 b) ix iy)
  else aget z ix iy.

Definition jacobi_sweep (b z : ndarray) : ndarray :=
  NdArray (shape0 b) (shape1 b)
    ((λ k, jacobi_point b z (k / shape1 b) (k mod shape1 b))
       <$> seq 0 (shape0 b * shape1 b)).

Definition jacobi (b : ndarray) (nrep : nat) : ndarray :=
  Nat.iter nrep (jacobi_sweep b) (nan_to_zero b).

(** The grid on which the update divides by zero: a single point, nan. *)
Definition degenerate (b : ndarray) : Prop :=
  shape0 b = 1 ∧ shape1 b = 1 ∧ is_nan (aget b 0 0) = true.

(** *** The growth of the lightning path *)

Record state := State {
  st_b : ndarray;
  st_c : ndarray;
  st_zeroneighbor : ndarray;
  st_ymin : nat;
  st_ns : nat
}.

(** [np.isnan(zeroneighbor)] as a factor of a product of floats. *)
Definition isnan_mask (x : float) : float :=
  if is_nan x then 1%float else 0%float.

(** The four guarded assignments of nan to [zeroneighbor]. *)
Definition mark_neighbours (zeroneighbor : ndarray) (Lx Ly ix iy : nat)
  : ndarray :=
  let zeroneighbor :=
    if Nat.ltb 0 ix then aset zeroneighbor (ix - 1) iy nan
    else zeroneighbor in
  let zeroneighbor :=
    if Nat.ltb ix (Lx - 1) then aset zeroneighbor (ix + 1) iy nan
    else zeroneighbor in
  let zeroneighbor :=
    if Nat.ltb 0 iy then aset zeroneighbor ix (iy - 1) nan
    else zeroneighbor in
  let zeroneighbor :=
    if Nat.ltb iy (Ly - 1) then aset zeroneighbor ix (iy + 1) nan
    else zeroneighbor in
  zeroneighbor.

Section growth.
(** [x ** y] of numpy, which is no operation of the kernel's floats. *)
Variable power : float → float → float.
(** The constants of the notebook: the shape of the grid, the number of
    Jacobi sweeps and the exponent of the potential. *)
Variables (Lx Ly nrep : nat) (eta : float).

(** [sprob = s**eta; sprob = sprob*uniform*np.isnan(zeroneighbor)] *)
Definition sprob_of (s uniform zeroneighbor : ndarray) : ndarray :=
  let sprob := amap (λ x, power x eta) s in
  amap2 PrimFloat.mul (amap2 PrimFloat.mul sprob uniform)
    (amap isnan_mask zeroneighbor).

(** The body of the [while] loop; [uniform] is the array that
    [np.random.uniform(0,1,(Lx,Ly))] returns in this iteration. *)
Definition growth_step (uniform : ndarray) (st : state) : result state :=
  s ← solvepoisson (st_b st) nrep;
  let sprob := sprob_of s uniform (st_zeroneighbor st) in
  k ← argmax (data sprob);
  let '(ix, iy) := unravel_index k sprob in
  let b := aset (st_b st) ix iy 0%float in
  let zeroneighbor := mark_neighbours (st_zeroneighbor st) Lx Ly ix iy in
  let ns := st_ns st + 1 in
  let c := aset (st_c st) ix iy (float_of_nat ns) in
  let ymin := if Nat.ltb iy (st_ymin st) then iy else st_ymin st in
  Ok (State b c zeroneighbor ymin ns).

(** [while (ymin>0): ...], with the samples of the successive iterations
    in [uniform]; [None] when [fuel] iterations did not end the loop. *)
Fixpoint growth_loop (fuel : nat) (uniform : nat → ndarray) (st : state)
  : result (option state) :=
  if Nat.ltb 0 (st_ymin st) then
    match fuel with
    | 0 => Ok None
    | S fuel' =>
        st' ← growth_step (uniform (st_ns st)) st;
        growth_loop fuel' uniform st'
    end
  else Ok (Some st).

(** The first [k] iterations, whatever the loop condition. *)
Fixpoint growth_steps (k : nat) (uniform : nat → ndarray) (st : state)
  : result state :=
  match k with
  | 0 => Ok st
  | S k' =>
      st' ← growth_step (uniform (st_ns st)) st;
      growth_steps k' uniform st'
  end.

(** The cells that set up the arrays, for [2 <= Ly]. *)
Definition initial_state : state :=
  let b := full Lx Ly nan in
  let b := set_column b 0 1%float in
  let b := set_column b (Ly - 1) 0%float in
  let c := full Lx Ly 0%float in
  let zeroneighbor := full Lx Ly 0%float in
  let zeroneighbor := set_column zeroneighbor (Ly - 2) nan in
  State b c zeroneighbor (Ly - 1) 0.
End growth.

(** [x ** 1.0], the power that the notebook takes ([eta = 1.0]): numpy
    returns [x]. *)
Definition power_one (x y : float) : float := x.

(** The notebook's number of sweeps and exponent. *)
Definition nrep : nat := 3000.
Definition eta : float := 1%float.

(** Two sequences of samples on a grid of 2 by 3 points, the same in
    every iteration. *)
Definition uniform_a (_ : nat) : ndarray := full 2 3 0.5%float.
Definition uniform_b (_ : nat) : ndarray :=
  NdArray 2 3 [0.1%float; 0.5%float; 0.5%float;
               0.1%float; 0.9%float; 0.5%float].

(** The arrays of a state have the shape of the grid. *)
Definition state_wf (Lx Ly : nat) (st : state) : Prop :=
  wf (st_b st) ∧ shape0 (st_b st) = Lx ∧ shape1 (st_b st) = Ly ∧
  wf (st_c st) ∧ shape0 (st_c st) = Lx ∧ shape1 (st_c st) = Ly ∧
  wf (st_zeroneighbor st) ∧
  shape0 (st_zeroneighbor st) = Lx ∧ shape1 (st_zeroneighbor st) = Ly.

(** Two points of the grid are adjacent: one step apart along one axis. *)
Definition adjacent (p q : nat * nat) : Prop :=
  (p.1 = q.1 ∧ (p.2 + 1 = q.2 ∨ p.2 = q.2 + 1)) ∨
  (p.2 = q.2 ∧ (p.1 + 1 = q.1 ∨ p.1 = q.1 + 1)).

(** Small grids: a single row with one unknown, and a cloud above a ground
    with one row of unknowns between them. *)
Definition b_row : ndarray := NdArray 1 2 [nan; 5%float].

Definition b_small : ndarray :=
  NdArray 2 3 [1%float; nan; 0%float; 1%float; nan; 0%float].

Definition b_point : ndarray := NdArray 1 1 [nan].

(** A grid with every potential specified. *)
Definition b_specified : ndarray :=
  NdArray 2 2 [1%float; 0.5%float; 0%float; 2%float].

(** The entries of [znew] that a sweep has written when it reaches flat
    index [m]: those before [m]. *)
Definition swept (b z : ndarray) (m : nat) (znew : ndarray) : Prop :=
  wf znew ∧ same_shape znew b ∧
  ∀ ix iy, iy < shape1 b → ix * shape1 b + iy < m →
    aget znew ix iy = jacobi_point b z ix iy.

(** No point of the grid is nan without a neighbour. *)
Definition has_neighbours (b : ndarray) : Prop :=
  ∀ ix iy, ix < shape0 b → iy < shape1 b →
    is_nan (aget b ix iy) = true → 2 ≤ shape0 b ∨ 2 ≤ shape1 b.

End Lightning.

Module MolDyn.

(** *** Vectors of the plane

    The last axis of every array of the notebook has length [dims = 2]; a
    row of such an array is a pair. *)

Abbreviation vec := (float * float)%type.

Definition vadd (a b : vec) : vec := ((a.1 + b.1)%float, (a.2 + b.2)%float).
Definition vsub (a b : vec) : vec := ((a.1 - b.1)%float, (a.2 - b.2)%float).
Definition vneg (a : vec) : vec := ((- a.1)%float, (- a.2)%float).
(** [a*c], [c*a] and [a/c] for an array [a] and a scalar [c] *)
Definition vscale (a : vec) (c : float) : vec :=
  ((a.1 * c)%float, (a.2 * c)%float).
Definition vscale_l (c : float) (a : vec) : vec :=
  ((c * a.1)%float, (c * a.2)%float).
Definition vdiv (a : vec) (c : float) : vec :=
  ((a.1 / c)%float, (a.2 / c)%float).

(** [np.linalg.norm(a, axis=1)], for one row: the square root of the sum
    of the squares, each product and the sum rounded. *)
Definition norm (a : vec) : float :=
  PrimFloat.sqrt (a.1 * a.1 + a.2 * a.2)%float.

(** [np.linalg.norm] of a one-dimensional array: [sqrt(a.dot(a))].  The
    product [a.dot(a)] is computed by the BLAS routine that numpy is linked
    with, and neither numpy nor the notebook fixes how that routine rounds
    (each product and the sum, or fused multiply-adds): [dot] is a
    parameter of the spring loop and of all that runs it. *)
Definition norm_1d (dot : vec → vec → float) (a : vec) : float :=
  PrimFloat.sqrt (dot a a).

(** Two such routines: one rounds the two products and their sum, the
    other accumulates [acc = fma(a[i], b[i], acc)] from 0.0. *)
Definition dot_plain (a b : vec) : float := (a.1 * b.1 + a.2 * b.2)%float.
Definition dot_fused (a b : vec) : float :=
  fma a.2 b.2 (fma a.1 b.1 0%float).

(** [np.sum(rows, axis=0)]: the reduction starts from the identity of the
    addition, 0.0 in both columns, and adds the rows to it one after the
    other; zeros for no row, and +0.0 for a column of -0.0. *)
Definition sum_rows (rows : list vec) : vec :=
  foldl vadd (0%float, 0%float) rows.

(** [rows[mask]] for a boolean [mask] as long as [rows]. *)
Fixpoint mask_select {A : Type} (mask : list bool) (rows : list A) : list A :=
  match mask, rows with
  | m :: mask', r :: rows' =>
      if m then r :: mask_select mask' rows' else mask_select mask' rows'
  | _, _ => []
  end.

(** A frame is one time step of an array of shape
    [(timesteps, num_molecules, dims)]; a history is the whole array. *)
Abbreviation frame := (list vec).
Abbreviation history := (list frame).

(** [h[t, i]] and [h[t, i] = v] *)
Definition hget (h : history) (t i : nat) : vec := (h !!! t) !!! i.
Definition hset (h : history) (t i : nat) (v : vec) : history :=
  <[t := <[i := v]> (h !!! t)]> h.

(** [np.zeros((timesteps, num_molecules, dims))] *)
Definition zeros (timesteps num_molecules : nat) : history :=
  replicate timesteps (replicate num_molecules (0%float, 0%float)).

(** *** Constants of the notebook *)

Definition np_pi : float := 3.141592653589793%float.

Definition u : float := 1.66053906660e-27%float.
Definition e_charge : float := 1.602176634e-19%float.
Definition vac_perm : float := 8.8541878128e-12%float.
Definition k_e : float := (1 / (4 * np_pi * vac_perm))%float.
Definition k_boltz : float := 1.380649e-23%float.

Definition dt : float := 5e-17%float.

Definition partial_charge : float := (0.1811 * e_charge)%float.
Definition charge_H : float := partial_charge.
Definition charge_Cl : float := (- partial_charge)%float.
Definition mass_H : float := (1.00794 * u)%float.
Definition mass_Cl : float := (35.4527 * u)%float.
Definition bond_length : float := 0.13e-9%float.
Definition k_spring : float := 481%float.

(** *** [make_liquid] *)

(** [np.linspace(start, stop, num)] *)
Definition linspace (start stop : float) (num : nat) : list float :=
  let div := num - 1 in
  let y := float_of_nat <$> seq 0 num in
  let delta := (stop - start)%float in
  let y :=
    if Nat.ltb 0 div then
      let step := (delta / float_of_nat div)%float in
      if (step =? 0)%float
      then (λ v, (v / float_of_nat div * delta)%float) <$> y
      else (λ v, (v * step)%float) <$> y
    else (λ v, (v * delta)%float) <$> y in
  let y := (λ v, (v + start)%float) <$> y in
  if Nat.ltb 1 num then <[num - 1 := stop]> y else y.

(** [np.ravel] of the two arrays of [np.meshgrid(xx, yy)]: a row of the
    mesh for each entry of [yy]. *)
Definition ravel_mesh_x (xx yy : list float) : list float :=
  yy ≫= (λ _, xx).
Definition ravel_mesh_y (xx yy : list float) : list float :=
  yy ≫= (λ y, (λ _, y) <$> xx).

(** [molecule[:, k] = values]: the values go to the rows one to one, a
    single value goes to every row, and other lengths do not broadcast. *)
Definition broadcast_column (n : nat) (values : list float)
  : result (list float) :=
  if decide (length values = n) then Ok values
  else match values with
       | [v] => Ok (replicate n v)
       | _ => Raise ValueError
       end.

(** [normal] is the array that [np.random.normal(0,1,size=(num_molecules,
    dims))] returns, of [num_molecules] rows. *)
Definition make_liquid (num_molecules : nat) (bond_length : float)
    (grid_dims : nat * nat) (side_lengths : float * float)
    (normal : list vec) : result (frame * frame) :=
  let pos := normal in
  let r := norm <$> pos in
  let pos := zip_with (λ p r, vscale (vdiv p r) bond_length) pos r in
  let xx := linspace (- side_lengths.1 / 2)%float (side_lengths.1 / 2)%float
              grid_dims.1 in
  let yy := linspace (- side_lengths.2 / 2)%float (side_lengths.2 / 2)%float
              grid_dims.2 in
  molecule_x ← broadcast_column num_molecules (ravel_mesh_x xx yy);
  molecule_y ← broadcast_column num_molecules (ravel_mesh_y xx yy);
  let molecule := zip molecule_x molecule_y in
  let hydrogen := zip_with (λ m p, vsub m (vdiv p 2%float)) molecule pos in
  let chlorine := zip_with (λ m p, vadd m (vdiv p 2%float)) molecule pos in
  Ok (hydrogen, chlorine).

(** *** The forces *)

(** The bond of a molecule with its atoms at [r_H] and [r_Cl]: the
    accelerations of the hydrogen and of the chlorine. *)
Definition spring_acc (dot : vec → vec → float) (r_H r_Cl : vec)
  : vec * vec :=
  let spring_difference := vsub r_Cl r_H in
  let spring_distance := norm_1d dot spring_difference in
  let spring_unitvector := vdiv spring_difference spring_distance in
  let spring_force := (k_spring * (spring_distance - bond_length))%float in
  (vdiv (vscale spring_unitvector spring_force) mass_H,
   vdiv (vscale (vneg spring_unitvector) spring_force) mass_Cl).

(** The first inner loop: the springs of all the molecules at step [t]. *)
Definition spring_loop (dot : vec → vec → float) (num_molecules t : nat)
    (position_H position_Cl spring_acc_H spring_acc_Cl : history)
  : history * history :=
  foldl (λ '(spring_acc_H, spring_acc_Cl) i,
      let '(a_H, a_Cl) :=
        spring_acc dot (hget position_H t i) (hget position_Cl t i) in
      (hset spring_acc_H t i a_H, hset spring_acc_Cl t i a_Cl))
    (spring_acc_H, spring_acc_Cl) (seq 0 num_molecules).

(** The Coulomb forces that the atoms at [others], of charge [q_b], exert
    on the atom at [r_a], of charge [q_a]: the rows of one
    [coulomb_force_*_*] array. *)
Definition coulomb_force (q_a q_b : float) (r_a : vec) (others : list vec)
  : list vec :=
  let coulomb_difference := (λ r_b, vsub r_a r_b) <$> others in
  let coulomb_distance := norm <$> coulomb_difference in
  let coulomb_unitvector :=
    zip_with vdiv coulomb_difference coulomb_distance in
  zip_with (λ unitvector distance,
      vdiv (vscale_l (k_e * q_a * q_b)%float unitvector)
           (distance * distance)%float)
    coulomb_unitvector coulomb_distance.

(** The body of the second inner loop: the Coulomb accelerations of the
    two atoms of molecule [i], from the frames of the positions. *)
Definition coulomb_acc (num_molecules i : nat) (pos_H pos_Cl : frame)
  : vec * vec :=
  let coulomb_mask := (λ j, negb (Nat.eqb j i)) <$> seq 0 num_molecules in
  let others_H := mask_select coulomb_mask pos_H in
  let others_Cl := mask_select coulomb_mask pos_Cl in
  let coulomb_force_H_H :=
    coulomb_force charge_H charge_H (pos_H !!! i) others_H in
  let coulomb_force_H_Cl :=
    coulomb_force charge_H charge_Cl (pos_H !!! i) others_Cl in
  let coulomb_force_Cl_H :=
    coulomb_force charge_Cl charge_H (pos_Cl !!! i) others_H in
  let coulomb_force_Cl_Cl :=
    coulomb_force charge_Cl charge_Cl (pos_Cl !!! i) others_Cl in
  (vdiv (vadd (sum_rows coulomb_force_H_H) (sum_rows coulomb_force_H_Cl))
     mass_H,
   vdiv (vadd (sum_rows coulomb_force_Cl_H) (sum_rows coulomb_force_Cl_Cl))
     mass_Cl).

Definition coulomb_loop (num_molecules t : nat)
    (position_H position_Cl coulomb_acc_H coulomb_acc_Cl : history)
  : history * history :=
  foldl (λ '(coulomb_acc_H, coulomb_acc_Cl) i,
      let '(a_H, a_Cl) :=
        coulomb_acc num_molecules i (position_H !!! t) (position_Cl !!! t) in
      (hset coulomb_acc_H t i a_H, hset coulomb_acc_Cl t i a_Cl))
    (coulomb_acc_H, coulomb_acc_Cl) (seq 0 num_molecules).

(** *** The integration loop *)

(** What the cell prints. *)
Inductive line :=
  | Progress (t timesteps : nat)
  | Summary (num_molecules timesteps : nat).

Record state := State {
  position_H : history;
  position_Cl : history;
  velocity_H : history;
  velocity_Cl : history;
  acceleration_H : history;
  acceleration_Cl : history;
  coulomb_acc_H : history;
  coulomb_acc_Cl : history;
  spring_acc_H : history;
  spring_acc_Cl : history;
  output : list line;
  (** ghost: the iterations of the time loop started so far *)
  iterations : nat
}.

(** [int(f)] of a float: the integer part, towards zero. *)
Definition py_int (f : float) : Z :=
  match Prim2SF f with
  | S754_finite s m e =>
      let a := Z.shiftl (Z.pos m) e in if s then (- a)%Z else a
  | _ => 0%Z
  end.

(** [int(timesteps/20)] *)
Definition progress_period (timesteps : nat) : nat :=
  Z.to_nat (py_int (float_of_nat timesteps / float_of_nat 20)%float).

(** [if t!=0 and t%int(timesteps/20) == 0: print(t, 'of', timesteps)] *)
Definition progress (timesteps t : nat) (output : list line)
  : result (list line) :=
  if negb (Nat.eqb t 0) then
    let period := progress_period timesteps in
    if Nat.eqb period 0 then Raise ZeroDivisionError
    else if Nat.eqb (t mod period) 0
         then Ok (output ++ [Progress t timesteps])
         else Ok output
  else Ok output.

(** [a + b] and [a*c] on frames *)
Definition fadd (a b : frame) : frame := zip_with vadd a b.
Definition fscale (a : frame) (c : float) : frame := (λ v, vscale v c) <$> a.

(** The body of [for t in range(timesteps-1)]. *)
Definition md_step (dot : vec → vec → float)
    (timesteps num_molecules t : nat) (st : state) : result state :=
  let position_H := position_H st in
  let position_Cl := position_Cl st in
  let '(spring_acc_H, spring_acc_Cl) :=
    spring_loop dot num_molecules t position_H position_Cl
      (spring_acc_H st) (spring_acc_Cl st) in
  let '(coulomb_acc_H, coulomb_acc_Cl) :=
    coulomb_loop num_molecules t position_H position_Cl
      (coulomb_acc_H st) (coulomb_acc_Cl st) in
  let acceleration_H :=
    <[t := fadd (coulomb_acc_H !!! t) (spring_acc_H !!! t)]>
      (acceleration_H st) in
  let acceleration_Cl :=
    <[t := fadd (coulomb_acc_Cl !!! t) (spring_acc_Cl !!! t)]>
      (acceleration_Cl st) in
  let velocity_H :=
    <[t + 1 := fadd (velocity_H st !!! t) (fscale (acceleration_H !!! t) dt)]>
      (velocity_H st) in
  let velocity_Cl :=
    <[t + 1 := fadd (velocity_Cl st !!! t) (fscale (acceleration_Cl !!! t) dt)]>
      (velocity_Cl st) in
  let position_H :=
    <[t + 1 := fadd (position_H !!! t) (fscale (velocity_H !!! (t + 1)) dt)]>
      position_H in
  let position_Cl :=
    <[t + 1 := fadd (position_Cl !!! t) (fscale (velocity_Cl !!! (t + 1)) dt)]>
      position_Cl in
  output ← progress timesteps t (output st);
  Ok (State position_H position_Cl velocity_H velocity_Cl
        acceleration_H acceleration_Cl coulomb_acc_H coulomb_acc_Cl
        spring_acc_H spring_acc_Cl output (S (iterations st))).

(** The arrays as the cell before the loop leaves them, with the first
    frame of the positions set. *)
Definition allocated (timesteps num_molecules : nat)
    (hydrogen chlorine : frame) : state :=
  let z := zeros timesteps num_molecules in
  State (<[0 := hydrogen]> z) (<[0 := chlorine]> z) z z z z z z z z [] 0.

(** The cell that allocates the arrays and sets the first frame of the
    positions to what [make_liquid] returns. *)
Definition initial_state (timesteps num_molecules : nat)
    (grid_dims : nat * nat) (side_lengths : float * float)
    (normal : list vec) : result state :=
  '(hydrogen, chlorine) ←
    make_liquid num_molecules bond_length grid_dims side_lengths normal;
  if Nat.eqb timesteps 0 then Raise IndexError
  else Ok (allocated timesteps num_molecules hydrogen chlorine).

(** The cell of the integration loop, with the summary it prints last. *)
Definition md_loop (dot : vec → vec → float)
    (timesteps num_molecules : nat) (st : state) : result state :=
  st ← for_range (timesteps - 1) (md_step dot timesteps num_molecules) st;
  Ok (State (position_H st) (position_Cl st) (velocity_H st) (velocity_Cl st)
        (acceleration_H st) (acceleration_Cl st)
        (coulomb_acc_H st) (coulomb_acc_Cl st)
        (spring_acc_H st) (spring_acc_Cl st)
        (output st ++ [Summary num_molecules timesteps]) (iterations st)).

(** The values of the notebook. *)
Definition grid_dims : nat * nat := (4, 4).
Definition num_molecules : nat := grid_dims.1 * grid_dims.2.
Definition timesteps : nat := 5000.
Definition side_lengths : float * float :=
  ((float_of_nat (2 * grid_dims.1) * bond_length)%float,
   (float_of_nat (2 * grid_dims.2) * bond_length)%float).

(** The arrays of a state have [timesteps] frames of [num_molecules]
    rows. *)
Definition shaped (timesteps num_molecules : nat) (h : history) : Prop :=
  length h = timesteps ∧ Forall (λ fr, length fr = num_molecules) h.

Definition state_shaped (timesteps num_molecules : nat) (st : state) : Prop :=
  shaped timesteps num_molecules (position_H st) ∧
  shaped timesteps num_molecules (position_Cl st) ∧
  shaped timesteps num_molecules (velocity_H st) ∧
  shaped timesteps num_molecules (velocity_Cl st) ∧
  shaped timesteps num_molecules (acceleration_H st) ∧
  shaped timesteps num_molecules (acceleration_Cl st) ∧
  shaped timesteps num_molecules (coulomb_acc_H st) ∧
  shaped timesteps num_molecules (coulomb_acc_Cl st) ∧
  shaped timesteps num_molecules (spring_acc_H st) ∧
  shaped timesteps num_molecules (spring_acc_Cl st).

(** The frames that the two inner loops write at a step, from the frames
    of the positions at that step. *)
Definition spring_frames (dot : vec → vec → float) (num_molecules : nat)
    (pos_H pos_Cl : frame) : frame * frame :=
  ((λ i, (spring_acc dot (pos_H !!! i) (pos_Cl !!! i)).1)
     <$> seq 0 num_molecules,
   (λ i, (spring_acc dot (pos_H !!! i) (pos_Cl !!! i)).2)
     <$> seq 0 num_molecules).

Definition coulomb_frames (num_molecules : nat) (pos_H pos_Cl : frame)
  : frame * frame :=
  ((λ i, (coulomb_acc num_molecules i pos_H pos_Cl).1)
     <$> seq 0 num_molecules,
   (λ i, (coulomb_acc num_molecules i pos_H pos_Cl).2)
     <$> seq 0 num_molecules).

(** The arrays of [st] hold step [t] of the integration: the forces of
    the positions at [t], their sum, and the velocities and positions at
    [t + 1]. *)
Definition integrated (dot : vec → vec → float) (num_molecules t : nat)
    (st : state) : Prop :=
  spring_acc_H st !!! t
    = (spring_frames dot num_molecules (position_H st !!! t)
         (position_Cl st !!! t)).1 ∧
  spring_acc_Cl st !!! t
    = (spring_frames dot num_molecules (position_H st !!! t)
         (position_Cl st !!! t)).2 ∧
  coulomb_acc_H st !!! t
    = (coulomb_frames num_molecules (position_H st !!! t)
         (position_Cl st !!! t)).1 ∧
  coulomb_acc_Cl st !!! t
    = (coulomb_frames num_molecules (position_H st !!! t)
         (position_Cl st !!! t)).2 ∧
  acceleration_H st !!! t
    = fadd (coulomb_acc_H st !!! t) (spring_acc_H st !!! t) ∧
  acceleration_Cl st !!! t
    = fadd (coulomb_acc_Cl st !!! t) (spring_acc_Cl st !!! t) ∧
  velocity_H st !!! (t + 1)
    = fadd (velocity_H st !!! t) (fscale (acceleration_H st !!! t) dt) ∧
  velocity_Cl st !!! (t + 1)
    = fadd (velocity_Cl st !!! t) (fscale (acceleration_Cl st !!! t) dt) ∧
  position_H st !!! (t + 1)
    = fadd (position_H st !!! t) (fscale (velocity_H st !!! (t + 1)) dt) ∧
  position_Cl st !!! (t + 1)
    = fadd (position_Cl st !!! t) (fscale (velocity_Cl st !!! (t + 1)) dt).

(** The centre of molecule [k] on the grid, and the vector from its
    hydrogen to its chlorine, in [make_liquid]. *)
Definition centre (grid_dims : nat * nat) (side_lengths : float * float)
    (k : nat) : vec :=
  (linspace (- side_lengths.1 / 2)%float (side_lengths.1 / 2)%float
     grid_dims.1 !!! (k mod grid_dims.1),
   linspace (- side_lengths.2 / 2)%float (side_lengths.2 / 2)%float
     grid_dims.2 !!! (k / grid_dims.1)).

Definition bond_vector (bond_length : float) (normal : list vec) (k : nat)
  : vec :=
  vscale (vdiv (normal !!! k) (norm (normal !!! k))) bond_length.

(** Two molecules, the first stretched along the first axis. *)
Definition two_molecules : state :=
  allocated 21 2
    [(0%float, 0%float); (5e-10%float, 0%float)]
    [(1.21e-10%float, 0%float); (5e-10%float, 1.3e-10%float)].

(** One molecule alone, and two molecules with too few time steps for
    the progress test. *)
Definition one_molecule : state :=
  allocated 21 1 [(0%float, 0%float)] [(1.3e-10%float, 0%float)].

Definition short_run : state :=
  allocated 10 2
    [(0%float, 0%float); (1%float, 0%float)]
    [(0%float, 1%float); (1%float, 1%float)].

(** A sample whose directions all lie along the first axis. *)
Definition normal_along_x : list vec :=
  replicate num_molecules (1%float, 0%float).

(** The state in which the notebook enters the loop, for that sample. *)
Definition liquid : frame * frame :=
  match make_liquid num_molecules bond_length grid_dims side_lengths
          normal_along_x with
  | Ok frames => frames
  | Raise _ => ([], [])
  end.

Definition notebook_start : state :=
  allocated timesteps num_molecules liquid.1 liquid.2.

(** *** The Coulomb acceleration, as the specification words it *)

(** The inverse-square term [k_e*q_a*q_b/d^2] along the unit vector from
    the atom at [r_b] to the atom at [r_a]. *)
Definition coulomb_term (q_a q_b : float) (r_a r_b : vec) : vec :=
  let d := norm (vsub r_a r_b) in
  let unit := vdiv (vsub r_a r_b) d in
  vdiv (vscale_l (k_e * q_a * q_b)%float unit) (d * d)%float.

(** The molecules other than [i]. *)
Definition other_molecules (num_molecules i : nat) : list nat :=
  filter (λ j, j ≠ i) (seq 0 num_molecules).

(** The sum over the other molecules [j] of the terms between the atom at
    [r_a] and the atom of [j] in the frame [pos_b]. *)
Definition coulomb_sum (num_molecules i : nat) (q_a q_b : float) (r_a : vec)
    (pos_b : frame) : vec :=
  sum_rows ((λ j, coulomb_term q_a q_b r_a (pos_b !!! j))
              <$> other_molecules num_molecules i).

Definition coulomb_acc_of_H (num_molecules i : nat) (pos_H pos_Cl : frame)
  : vec :=
  vdiv (vadd
          (coulomb_sum num_molecules i charge_H charge_H (pos_H !!! i) pos_H)
          (coulomb_sum num_molecules i charge_H charge_Cl (pos_H !!! i) pos_Cl))
       mass_H.

Definition coulomb_acc_of_Cl (num_molecules i : nat) (pos_H pos_Cl : frame)
  : vec :=
  vdiv (vadd
          (coulomb_sum num_molecules i charge_Cl charge_H (pos_Cl !!! i) pos_H)
          (coulomb_sum num_molecules i charge_Cl charge_Cl (pos_Cl !!! i)
             pos_Cl))
       mass_Cl.

(** The steps at which the loop prints its progress, and what it has
    printed when [t] iterations are done. *)
Definition progress_steps (timesteps t : nat) : list nat :=
  filter (λ t, t ≠ 0 ∧ t mod progress_period timesteps = 0) (seq 0 t).

Definition progress_lines (timesteps t : nat) : list line :=
  (λ t, Progress t timesteps) <$> progress_steps timesteps t.

End MolDyn.

(** * Properties *)

(** ** Loops *)

Section loops.
Context {St : Type}.
Implicit Types (body : nat → St → result St) (I : nat → St → Prop).

(** The invariant rule of a [for] loop whose body raises nothing. *)
Lemma for_from_inv I body start n s :
  I start s →
  (∀ i s, start ≤ i < start + n → I i s →
    ∃ s', body i s = Ok s' ∧ I (S i) s') →
  ∃ s', for_from start n body s = Ok s' ∧ I (start + n) s'.
Proof.
  revert start s. induction n as [|n IH]; intros start s Hs Hbody; simpl.
  - exists s. by rewrite Nat.add_0_r.
  - destruct (Hbody start s) as (s1 & -> & Hs1); [lia | done |].
    destruct (IH (S start) s1) as (s2 & Hrun & Hs2); [done | |].
    + intros i s' ? ?. apply Hbody; [lia | done].
    + exists s2. split; [exact Hrun |].
      by replace (start + S n) with (S start + n) by lia.
Qed.

Lemma for_range_inv I body n s :
  I 0 s →
  (∀ i s, i < n → I i s → ∃ s', body i s = Ok s' ∧ I (S i) s') →
  ∃ s', for_range n body s = Ok s' ∧ I n s'.
Proof.
  intros Hs Hbody. apply (for_from_inv I body 0 n s Hs).
  intros i s' [_ ?] ?. by apply Hbody.
Qed.

Lemma bind_Ok {A B} (a : A) (f : A → result B) : (Ok a ≫= f) = f a.
Proof. done. Qed.

(** An exception in the first iteration is the loop's. *)
Lemma for_range_raise_first body n s e :
  body 0 s = Raise e → for_range (S n) body s = Raise e.
Proof. unfold for_range. simpl. by intros ->. Qed.
End loops.

(** ** Arrays *)

Lemma flat_index_lt Lx Ly ix iy : ix < Lx → iy < Ly → ix * Ly + iy < Lx * Ly.
Proof.
  intros Hx Hy. assert (S ix * Ly ≤ Lx * Ly) by (apply Nat.mul_le_mono_r; lia).
  lia.
Qed.

Lemma flat_index_inj Ly ix iy ix' iy' :
  iy < Ly → iy' < Ly → ix * Ly + iy = ix' * Ly + iy' → ix = ix' ∧ iy = iy'.
Proof.
  intros Hy Hy' Heq.
  assert (ix = ix') as ->; [|lia].
  destruct (Nat.lt_trichotomy ix ix') as [Hlt | [-> | Hlt]]; [|done|].
  - assert (S ix * Ly ≤ ix' * Ly) by (apply Nat.mul_le_mono_r; lia). lia.
  - assert (S ix' * Ly ≤ ix * Ly) by (apply Nat.mul_le_mono_r; lia). lia.
Qed.

Lemma aset_shape0 a ix iy v : shape0 (aset a ix iy v) = shape0 a.
Proof. done. Qed.

Lemma aset_shape1 a ix iy v : shape1 (aset a ix iy v) = shape1 a.
Proof. done. Qed.

Lemma aset_wf a ix iy v : wf a → wf (aset a ix iy v).
Proof. unfold wf. simpl. by rewrite length_insert. Qed.

Lemma aget_aset_eq a ix iy v :
  wf a → ix < shape0 a → iy < shape1 a → aget (aset a ix iy v) ix iy = v.
Proof.
  intros Hwf Hx Hy. unfold aget, aset. simpl.
  apply list_lookup_total_insert_eq. rewrite Hwf. by apply flat_index_lt.
Qed.

Lemma aget_aset_ne a ix iy ix' iy' v :
  iy < shape1 a → iy' < shape1 a → (ix, iy) ≠ (ix', iy') →
  aget (aset a ix iy v) ix' iy' = aget a ix' iy'.
Proof.
  intros Hy Hy' Hne. unfold aget, aset. simpl.
  apply list_lookup_total_insert_ne. intros Heq.
  apply flat_index_inj in Heq as [-> ->]; done.
Qed.

(** Two arrays of one shape with the same entries are the same array. *)
Lemma ndarray_eq a b :
  wf a → wf b → same_shape a b →
  (∀ ix iy, ix < shape0 a → iy < shape1 a → aget a ix iy = aget b ix iy) →
  a = b.
Proof.
  destruct a as [Lx Ly da], b as [Lx' Ly' db]. unfold wf, same_shape, aget.
  simpl. intros Ha Hb [<- <-] Hget. f_equal.
  apply list_eq_same_length with (Lx * Ly); [done | done |].
  intros k x y Hk Hx Hy.
  assert (0 < Ly) by (destruct Ly; [lia | lia]).
  assert (Hk' : k = k / Ly * Ly + k mod Ly)
    by (rewrite Nat.mul_comm; apply Nat.div_mod_eq).
  apply list_lookup_total_correct in Hx, Hy. rewrite <- Hx, <- Hy, Hk'.
  apply Hget.
  - apply Nat.Div0.div_lt_upper_bound. lia.
  - apply Nat.mod_upper_bound. lia.
Qed.

(** ** The relaxation solver *)

Section solver.
Import Lightning.
Implicit Types (b z znew : ndarray).

Lemma not_degenerate_has_neighbours b : ¬ degenerate b → has_neighbours b.
Proof.
  intros Hnd ix iy Hx Hy Hnan.
  destruct (decide (2 ≤ shape0 b)); [by left |].
  destruct (decide (2 ≤ shape1 b)); [by right |].
  destruct Hnd. assert (ix = 0) as -> by lia. assert (iy = 0) as -> by lia.
  unfold degenerate. repeat split; [lia | lia | done].
Qed.

Lemma neighbours_length_bounds Lx Ly ix iy :
  ix < Lx → iy < Ly → 2 ≤ Lx ∨ 2 ≤ Ly →
  1 ≤ length (neighbours Lx Ly ix iy) ≤ 4.
Proof.
  intros Hx Hy Hsz. unfold neighbours.
  repeat case_bool_decide; simpl; lia.
Qed.

Lemma neighbours_length_234 Lx Ly ix iy :
  ix < Lx → iy < Ly → 2 ≤ Lx → 2 ≤ Ly →
  2 ≤ length (neighbours Lx Ly ix iy) ≤ 4.
Proof.
  intros Hx Hy Hsx Hsy. unfold neighbours.
  repeat case_bool_decide; simpl; lia.
Qed.

(** The accumulation of [pot] and [ncount] computes the mean of the
    in-grid neighbours, and the division raises nothing. *)
Lemma relax_point_jacobi b z ix iy znew :
  ix < shape0 b → iy < shape1 b →
  (is_nan (aget b ix iy) = true → 2 ≤ shape0 b ∨ 2 ≤ shape1 b) →
  relax_point b z (shape0 b) (shape1 b) ix iy znew
  = Ok (aset znew ix iy (jacobi_point b z ix iy)).
Proof.
  intros Hx Hy Hsafe.
  unfold relax_point, neighbour_sums, jacobi_point, neighbours, mean.
  destruct (is_nan (aget b ix iy)); [|done].
  specialize (Hsafe eq_refl).
  destruct (Nat.ltb_spec 0 ix), (Nat.ltb_spec ix (shape0 b - 1)),
    (Nat.ltb_spec 0 iy), (Nat.ltb_spec iy (shape1 b - 1));
    repeat case_bool_decide; try lia; reflexivity.
Qed.

Lemma jacobi_sweep_wf b z : wf (jacobi_sweep b z).
Proof. unfold wf. simpl. by rewrite length_fmap, length_seq. Qed.

Lemma aget_jacobi_sweep b z ix iy :
  ix < shape0 b → iy < shape1 b →
  aget (jacobi_sweep b z) ix iy = jacobi_point b z ix iy.
Proof.
  intros Hx Hy. unfold aget, jacobi_sweep. simpl.
  pose proof (flat_index_lt _ _ _ _ Hx Hy) as Hk.
  apply list_lookup_total_correct.
  rewrite list_lookup_fmap, lookup_seq_lt by done. simpl.
  rewrite Nat.div_add_l by lia. rewrite (Nat.div_small iy) by done.
  rewrite (Nat.add_comm (ix * shape1 b)), Nat.Div0.mod_add.
  rewrite Nat.mod_small by done. by rewrite Nat.add_0_r.
Qed.

Lemma swept_step b z ix iy znew :
  has_neighbours b → ix < shape0 b → iy < shape1 b →
  swept b z (ix * shape1 b + iy) znew →
  ∃ znew', relax_point b z (shape0 b) (shape1 b) ix iy znew = Ok znew' ∧
           swept b z (ix * shape1 b + S iy) znew'.
Proof.
  intros Hsafe Hx Hy (Hwf & [Hs0 Hs1] & Hdone).
  eexists. split.
  { apply relax_point_jacobi; [done | done | by apply Hsafe]. }
  split; [by apply aset_wf |]. split; [done |].
  intros ix' iy' Hy' Hlt.
  destruct (decide ((ix, iy) = (ix', iy'))) as [[= <- <-] | Hne].
  - apply aget_aset_eq; [done | lia | lia].
  - rewrite aget_aset_ne by (done || lia). apply Hdone; [done |].
    destruct (decide (ix' * shape1 b + iy' = ix * shape1 b + iy)) as [Heq|];
      [| lia].
    apply flat_index_inj in Heq as [-> ->]; done.
Qed.

(** One sweep of the two inner loops is one Jacobi sweep: every entry of
    [znew] is overwritten, from [z] alone. *)
Lemma sweep_jacobi b z znew :
  has_neighbours b → wf znew → same_shape znew b →
  sweep b z (shape0 b) (shape1 b) znew = Ok (jacobi_sweep b z).
Proof.
  intros Hsafe Hwf Hsh. unfold sweep.
  destruct (for_range_inv (λ ix, swept b z (ix * shape1 b))
    (λ ix znew, for_range (shape1 b)
       (λ iy znew, relax_point b z (shape0 b) (shape1 b) ix iy znew) znew)
    (shape0 b) znew) as (znew' & -> & Hwf' & Hsh' & Hdone).
  - split; [done |]. split; [done |]. intros; lia.
  - intros ix zn Hx Hzn.
    destruct (for_range_inv (λ iy, swept b z (ix * shape1 b + iy))
      (λ iy znew, relax_point b z (shape0 b) (shape1 b) ix iy znew)
      (shape1 b) zn) as (zn' & Hrun & Hzn').
    + by rewrite Nat.add_0_r.
    + intros iy zn1 Hy Hzn1. by apply swept_step.
    + exists zn'. split; [done |].
      by replace (S ix * shape1 b) with (ix * shape1 b + shape1 b) by lia.
  - f_equal. apply ndarray_eq; [done | apply jacobi_sweep_wf | done |].
    destruct Hsh' as [Hs0 Hs1]. rewrite Hs0, Hs1. intros ix iy Hx Hy.
    rewrite aget_jacobi_sweep by done. apply Hdone; [done |].
    by apply flat_index_lt.
Qed.

Lemma nan_to_zero_wf b : wf b → wf (nan_to_zero b).
Proof. unfold wf. simpl. by rewrite length_fmap. Qed.

Lemma jacobi_wf b n : wf b → wf (jacobi b n).
Proof.
  intros Hwf. destruct n; simpl; [by apply nan_to_zero_wf |].
  apply jacobi_sweep_wf.
Qed.

Lemma jacobi_shape b n : same_shape (jacobi b n) b.
Proof. by destruct n. Qed.

(** The loop of [solvepoisson] after [n] iterations: [z] holds the
    [n]-th Jacobi iterate, whichever buffer it is. *)
Lemma solvepoisson_jacobi b nrep :
  wf b → has_neighbours b → solvepoisson b nrep = Ok (jacobi b nrep).
Proof.
  intros Hwf Hsafe. unfold solvepoisson.
  destruct (for_range_inv
    (λ n (st : ndarray * ndarray),
       st.1 = jacobi b n ∧ wf st.2 ∧ same_shape st.2 b)
    (λ (_ : nat) '(z, znew),
       znew ← sweep b z (shape0 b) (shape1 b) znew; Ok (znew, z))
    nrep (nan_to_zero b, nan_to_zero b)) as ([z znew] & Hrun & Hz & _).
  - simpl. split; [done |]. split; [by apply nan_to_zero_wf | done].
  - intros n [z znew] Hn (Hz & Hwf' & Hsh'). simpl in *. subst z.
    rewrite sweep_jacobi by done. simpl. eexists. split; [done |].
    simpl. split; [done |]. split; [by apply jacobi_wf | apply jacobi_shape].
  - simpl in *. rewrite Hrun. simpl. by rewrite Hz.
Qed.

Lemma elem_of_guarded (P : Prop) `{!Decision P} (p q : nat * nat) :
  p ∈ (if bool_decide P then [q] else []) ↔ P ∧ p = q.
Proof.
  case_bool_decide.
  - rewrite list_elem_of_singleton. tauto.
  - rewrite elem_of_nil. tauto.
Qed.

(** The neighbours are the adjacent points that lie in the grid. *)
Lemma neighbours_spec Lx Ly ix iy p :
  ix < Lx → iy < Ly →
  p ∈ neighbours Lx Ly ix iy ↔ p.1 < Lx ∧ p.2 < Ly ∧ adjacent p (ix, iy).
Proof.
  intros Hx Hy. destruct p as [x y]. unfold neighbours, adjacent.
  rewrite !elem_of_app, !elem_of_guarded. simpl. split.
  - intros [[? [= -> ->]] | [[? [= -> ->]] | [[? [= -> ->]] | [? [= -> ->]]]]];
      lia.
  - intros (Hx' & Hy' & [[-> [H | H]] | [-> [H | H]]]).
    + right; right; left. split; [lia | f_equal; lia].
    + right; right; right. split; [lia | f_equal; lia].
    + left. split; [lia | f_equal; lia].
    + right; left. split; [lia | f_equal; lia].
Qed.

Lemma aget_nan_to_zero b ix iy :
  wf b → ix < shape0 b → iy < shape1 b →
  aget (nan_to_zero b) ix iy
  = if is_nan (aget b ix iy) then 0%float else aget b ix iy.
Proof.
  intros Hwf Hx Hy. unfold aget, nan_to_zero. simpl.
  apply list_lookup_total_correct. rewrite list_lookup_fmap.
  rewrite (list_lookup_lookup_total_lt (data b)); [done |].
  rewrite Hwf. by apply flat_index_lt.
Qed.

Lemma jacobi_step b n ix iy :
  ix < shape0 b → iy < shape1 b →
  aget (jacobi b (S n)) ix iy = jacobi_point b (jacobi b n) ix iy.
Proof. intros. by apply aget_jacobi_sweep. Qed.

(** The points that [b] specifies keep the value of [b] in every iterate. *)
Lemma jacobi_keeps_boundary b n ix iy :
  wf b → ix < shape0 b → iy < shape1 b → is_nan (aget b ix iy) = false →
  aget (jacobi b n) ix iy = aget b ix iy.
Proof.
  intros Hwf Hx Hy Hnan. induction n as [|n IH].
  - simpl. rewrite aget_nan_to_zero by done. by rewrite Hnan.
  - rewrite jacobi_step by done. unfold jacobi_point. by rewrite Hnan.
Qed.

Lemma solvepoisson_degenerate b nrep :
  degenerate b → 0 < nrep → solvepoisson b nrep = Raise ZeroDivisionError.
Proof.
  intros (H0 & H1 & Hnan) Hn. destruct nrep as [|n]; [lia |].
  unfold solvepoisson.
  rewrite (for_range_raise_first _ _ _ ZeroDivisionError); [done |].
  rewrite H0, H1. unfold sweep, for_range. simpl.
  unfold relax_point. by rewrite Hnan.
Qed.

Lemma degenerate_dec b : Decision (degenerate b).
Proof. unfold degenerate. apply _. Qed.

(** [C10] On every grid with at least two rows or at least two columns
    the count [ncount] accumulated at a point of the grid is at least 1,
    so that the division [pot/ncount] raises nothing and the solver
    returns; the solver raises (and then [ZeroDivisionError]) exactly on
    the grid of one point that is nan, as soon as one sweep is made. *)
Theorem solvepoisson_division_by_zero b nrep :
  wf b →
  (2 ≤ shape0 b ∨ 2 ≤ shape1 b →
    (∀ z ix iy, ix < shape0 b → iy < shape1 b →
      1 ≤ length (neighbours (shape0 b) (shape1 b) ix iy) ∧
      (1 <=? (neighbour_sums z (shape0 b) (shape1 b) ix iy).1)%float = true ∧
      py_div (neighbour_sums z (shape0 b) (shape1 b) ix iy).2
             (neighbour_sums z (shape0 b) (shape1 b) ix iy).1
      = Ok ((neighbour_sums z (shape0 b) (shape1 b) ix iy).2
            / (neighbour_sums z (shape0 b) (shape1 b) ix iy).1)%float) ∧
    ∃ s, solvepoisson b nrep = Ok s) ∧
  (∀ e, solvepoisson b nrep = Raise e ↔
        e = ZeroDivisionError ∧ degenerate b ∧ 0 < nrep).
Proof.
  intros Hwf. split.
  - intros Hsz. split.
    + intros z ix iy Hx Hy.
      split; [by apply neighbours_length_bounds |]. unfold neighbour_sums.
      destruct (Nat.ltb_spec 0 ix), (Nat.ltb_spec ix (shape0 b - 1)),
        (Nat.ltb_spec 0 iy), (Nat.ltb_spec iy (shape1 b - 1));
        try lia; split; reflexivity.
    + exists (jacobi b nrep). apply solvepoisson_jacobi; [done |].
      intros ix iy _ _ _. done.
  - intros e. split.
    + intros Hraise. destruct (degenerate_dec b) as [Hdeg | Hdeg].
      * destruct nrep as [|n]; [done |].
        rewrite solvepoisson_degenerate in Hraise by (done || lia).
        split; [congruence |]. split; [done | lia].
      * rewrite solvepoisson_jacobi in Hraise; [done | done |].
        by apply not_degenerate_has_neighbours.
    + intros (-> & Hdeg & Hn). by apply solvepoisson_degenerate.
Qed.

(** [C10], witness: the solver returns on [b_small] and raises on
    [b_point]. *)
Lemma solvepoisson_division_by_zero_witness :
  (∃ s, solvepoisson b_small 3 = Ok s) ∧
  solvepoisson b_point 3 = Raise ZeroDivisionError.
Proof.
  split.
  - apply (solvepoisson_division_by_zero b_small 3); [reflexivity |].
    simpl. lia.
  - apply (solvepoisson_division_by_zero b_point 3); [reflexivity |].
    split; [reflexivity |]. split; [| lia].
    split; [reflexivity |]. split; reflexivity.
Defined.

(** [C5] Where [b] is not nan the array returned by [solvepoisson] has
    the value of [b], whatever the number of sweeps: the solver returns,
    and only the nan points of [b] are modified. *)
Theorem solvepoisson_keeps_boundary b nrep ix iy :
  wf b → ix < shape0 b → iy < shape1 b → is_nan (aget b ix iy) = false →
  ∃ s, solvepoisson b nrep = Ok s ∧ same_shape s b ∧
       aget s ix iy = aget b ix iy.
Proof.
  intros Hwf Hx Hy Hnan. exists (jacobi b nrep). split; [| split].
  - apply solvepoisson_jacobi; [done |].
    apply not_degenerate_has_neighbours. intros (H0 & H1 & Hnan0).
    assert (ix = 0) as -> by lia. assert (iy = 0) as -> by lia. congruence.
  - apply jacobi_shape.
  - by apply jacobi_keeps_boundary.
Qed.

(** [C5], witness: the cloud point (1, 0) of [b_small] keeps its value. *)
Lemma solvepoisson_keeps_boundary_witness :
  ∃ s, solvepoisson b_small 3 = Ok s ∧ same_shape s b_small ∧
       aget s 1 0 = aget b_small 1 0.
Proof.
  apply (solvepoisson_keeps_boundary b_small 3 1 0);
    [reflexivity | simpl; lia | simpl; lia | reflexivity].
Defined.

(** [C2], as stated, fails on a grid of a single row: the nan point of
    [b_row] has one neighbour in the grid, not 2, 3 or 4, and its new
    value is that neighbour's value divided by 1. *)
Lemma solvepoisson_single_row_one_neighbour :
  wf b_row ∧ is_nan (aget b_row 0 0) = true ∧
  neighbours (shape0 b_row) (shape1 b_row) 0 0 = [(0, 1)] ∧
  ¬ (2 ≤ length (neighbours (shape0 b_row) (shape1 b_row) 0 0) ≤ 4) ∧
  solvepoisson b_row 1 = Ok (NdArray 1 2 [5%float; 5%float]).
Proof.
  split; [reflexivity |]. split; [reflexivity |]. split; [reflexivity |].
  split; [simpl; lia | reflexivity].
Qed.

(** [C2], amended.  On every grid but the single nan point,
    [solvepoisson b nrep] returns the field after exactly [nrep] Jacobi
    sweeps: the first field is [b] with 0 for nan; in each sweep a point
    that is nan in [b] takes the mean of its in-grid neighbours in the
    previous field and every other point keeps its value.  A nan point
    has from 1 to 4 such neighbours, and 2, 3 or 4 of them when the grid
    has at least two rows and two columns. *)
Theorem solvepoisson_jacobi_sweeps b nrep :
  wf b → ¬ degenerate b →
  solvepoisson b nrep = Ok (jacobi b nrep) ∧
  (∀ ix iy, ix < shape0 b → iy < shape1 b →
    aget (jacobi b 0) ix iy
    = if is_nan (aget b ix iy) then 0%float else aget b ix iy) ∧
  (∀ n ix iy, ix < shape0 b → iy < shape1 b →
    aget (jacobi b (S n)) ix iy
    = if is_nan (aget b ix iy)
      then mean ((λ p, aget (jacobi b n) p.1 p.2)
                   <$> neighbours (shape0 b) (shape1 b) ix iy)
      else aget (jacobi b n) ix iy) ∧
  (∀ ix iy p, ix < shape0 b → iy < shape1 b →
    p ∈ neighbours (shape0 b) (shape1 b) ix iy ↔
    p.1 < shape0 b ∧ p.2 < shape1 b ∧ adjacent p (ix, iy)) ∧
  (∀ ix iy, ix < shape0 b → iy < shape1 b →
    is_nan (aget b ix iy) = true →
    1 ≤ length (neighbours (shape0 b) (shape1 b) ix iy) ≤ 4 ∧
    (2 ≤ shape0 b → 2 ≤ shape1 b →
     2 ≤ length (neighbours (shape0 b) (shape1 b) ix iy) ≤ 4)).
Proof.
  intros Hwf Hnd.
  pose proof (not_degenerate_has_neighbours b Hnd) as Hsafe.
  split; [by apply solvepoisson_jacobi |].
  split; [intros; by apply aget_nan_to_zero |].
  split; [intros; by apply jacobi_step |].
  split; [intros; by apply neighbours_spec |].
  intros ix iy Hx Hy Hnan. split.
  - apply neighbours_length_bounds; [done | done |]. by apply (Hsafe ix iy).
  - intros. by apply neighbours_length_234.
Qed.

(** [C2], witness: four sweeps on the single row [b_row]. *)
Lemma solvepoisson_jacobi_sweeps_witness :
  solvepoisson b_row 4 = Ok (jacobi b_row 4).
Proof.
  apply (solvepoisson_jacobi_sweeps b_row 4); [reflexivity |].
  intros (_ & H & _). discriminate H.
Defined.
End solver.

(** ** The order of floats *)

Section float_order.
Implicit Types (x y z : float) (f g h : spec_float).

Local Ltac sf_signs :=
  repeat match goal with s : bool |- _ => destruct s end;
  simpl; try discriminate; try reflexivity.

Lemma SFcompare_lt_trans f g h :
  SFcompare f g = Some Lt → SFcompare g h = Some Lt →
  SFcompare f h = Some Lt.
Proof.
  destruct f as [sf|sf| |sf mf ef], g as [sg|sg| |sg mg eg],
    h as [sh|sh| |sh mh eh];
    simpl; try discriminate; try reflexivity; sf_signs;
    intros H1 H2; injection H1 as H1; injection H2 as H2; f_equal;
    destruct (Z.compare_spec ef eg), (Z.compare_spec eg eh),
      (Z.compare_spec ef eh);
    try discriminate; try reflexivity; try lia; subst;
    rewrite ?Pos.compare_cont_spec in *; simpl in *;
    destruct (Pos.compare_spec mf mg), (Pos.compare_spec mg mh),
      (Pos.compare_spec mf mh);
    simpl in *; try discriminate; try reflexivity; lia.
Qed.

Lemma SFcompare_eq_lt_trans f g h :
  SFcompare f g = Some Eq → SFcompare g h = Some Lt →
  SFcompare f h = Some Lt.
Proof.
  destruct f as [sf|sf| |sf mf ef], g as [sg|sg| |sg mg eg],
    h as [sh|sh| |sh mh eh];
    simpl; try discriminate; try reflexivity; sf_signs;
    intros H1 H2; injection H1 as H1; injection H2 as H2; f_equal;
    destruct (Z.compare_spec ef eg), (Z.compare_spec eg eh),
      (Z.compare_spec ef eh);
    try discriminate; try reflexivity; try lia; subst;
    rewrite ?Pos.compare_cont_spec in *; simpl in *;
    destruct (Pos.compare_spec mf mg), (Pos.compare_spec mg mh),
      (Pos.compare_spec mf mh);
    simpl in *; try discriminate; try reflexivity; lia.
Qed.

Lemma SFcompare_gt_lt f g : SFcompare f g = Some Gt → SFcompare g f = Some Lt.
Proof.
  destruct f as [sf|sf| |sf mf ef], g as [sg|sg| |sg mg eg];
    simpl; try discriminate; try reflexivity; sf_signs;
    intros H1; injection H1 as H1; f_equal;
    rewrite (Z.compare_antisym ef eg);
    destruct (Z.compare_spec ef eg);
    simpl in *; try discriminate; try reflexivity; subst;
    rewrite ?Pos.compare_cont_spec in *; simpl in *;
    rewrite (Pos.compare_antisym mf mg);
    destruct (Pos.compare_spec mf mg); simpl in *;
    try discriminate; reflexivity.
Qed.

Lemma SFcompare_refl f : f ≠ S754_nan → SFcompare f f = Some Eq.
Proof.
  destruct f as [sf|sf| |sf mf ef]; simpl; try done; sf_signs;
    intros _; rewrite Z.compare_refl, Pos.compare_cont_spec,
      Pos.compare_refl; reflexivity.
Qed.

Lemma SFcompare_None f g :
  SFcompare f g = None → f = S754_nan ∨ g = S754_nan.
Proof. destruct f, g; simpl; try discriminate; auto. Qed.

Lemma is_nan_false x : is_nan x = false → Prim2SF x ≠ S754_nan.
Proof.
  unfold is_nan. rewrite FloatAxioms.eqb_spec. unfold SFeqb. intros H Hnan.
  rewrite Hnan in H. discriminate.
Qed.

Lemma is_nan_true x : is_nan x = true → Prim2SF x = S754_nan.
Proof.
  unfold is_nan. rewrite FloatAxioms.eqb_spec. unfold SFeqb. intros H.
  destruct (Prim2SF x) as [s|s| |s m e] eqn:Hx; [| | done |];
    by rewrite SFcompare_refl in H.
Qed.

Lemma float_leb_refl x : is_nan x = false → (x <=? x)%float = true.
Proof.
  intros H%is_nan_false. rewrite FloatAxioms.leb_spec. unfold SFleb.
  by rewrite SFcompare_refl.
Qed.

Lemma float_leb_not_nan x y :
  (x <=? y)%float = true → is_nan x = false ∧ is_nan y = false.
Proof.
  rewrite FloatAxioms.leb_spec. unfold SFleb. intros H.
  split; apply not_true_is_false; intros Hnan%is_nan_true;
    rewrite Hnan in H; [done |]. by destruct (Prim2SF x).
Qed.

Lemma float_ltb_leb x y : (x <? y)%float = true → (x <=? y)%float = true.
Proof.
  rewrite FloatAxioms.ltb_spec, FloatAxioms.leb_spec. unfold SFltb, SFleb.
  by destruct (SFcompare _ _) as [[]|].
Qed.

(** Floats that are not nan are totally ordered. *)
Lemma float_leb_false x y :
  is_nan x = false → is_nan y = false →
  (x <=? y)%float = false → (y <? x)%float = true.
Proof.
  intros Hx%is_nan_false Hy%is_nan_false.
  rewrite FloatAxioms.ltb_spec, FloatAxioms.leb_spec. unfold SFltb, SFleb.
  destruct (SFcompare (Prim2SF x) (Prim2SF y)) as [[]|] eqn:Hc; try done.
  - intros _. by rewrite (SFcompare_gt_lt _ _ Hc).
  - by destruct (SFcompare_None _ _ Hc).
Qed.

Lemma float_leb_ltb_trans x y z :
  (x <=? y)%float = true → (y <? z)%float = true → (x <? z)%float = true.
Proof.
  rewrite !FloatAxioms.ltb_spec, FloatAxioms.leb_spec. unfold SFltb, SFleb.
  destruct (SFcompare (Prim2SF x) (Prim2SF y)) as [[]|] eqn:Hxy; try done;
    destruct (SFcompare (Prim2SF y) (Prim2SF z)) as [[]|] eqn:Hyz;
    try done; intros _ _.
  - by rewrite (SFcompare_eq_lt_trans _ _ _ Hxy Hyz).
  - by rewrite (SFcompare_lt_trans _ _ _ Hxy Hyz).
Qed.
End float_order.

(** ** [argmax] *)

Section argmax.
Implicit Types (l pre rest : list float) (mp m v : float).

Lemma first_max_nan_app m k pre rest :
  is_nan m = true → first_max m k pre → first_max m k (pre ++ rest).
Proof.
  intros Hnan (Hk & Hbefore & _). pose proof (lookup_lt_Some _ _ _ Hk).
  split; [by apply lookup_app_l_Some |]. split; [| congruence].
  intros j v Hj Hv. apply (Hbefore j v Hj).
  by rewrite lookup_app_l in Hv by lia.
Qed.

Lemma first_max_keep m k pre x :
  is_nan m = false → (x <=? m)%float = true →
  first_max m k pre → first_max m k (pre ++ [x]).
Proof.
  intros Hnan Hle (Hk & Hbefore & Hall). pose proof (lookup_lt_Some _ _ _ Hk).
  split; [by apply lookup_app_l_Some |]. split.
  - intros j v Hj Hv. apply (Hbefore j v Hj).
    by rewrite lookup_app_l in Hv by lia.
  - intros _ j v Hv. apply lookup_snoc_Some in Hv as [[_ Hv] | [_ <-]];
      [by apply (Hall Hnan j) | done].
Qed.

Lemma first_max_replace m k pre x :
  is_nan m = false → (x <=? m)%float = false →
  first_max m k pre → first_max x (length pre) (pre ++ [x]).
Proof.
  intros Hnan Hle (Hk & Hbefore & Hall).
  assert (∀ j v, pre !! j = Some v →
    is_nan v = false ∧ (is_nan x = false → (v <? x)%float = true))
    as Hpre.
  { intros j v Hv. specialize (Hall Hnan j v Hv).
    split; [by apply float_leb_not_nan in Hall as [? _] |].
    intros Hx. apply float_leb_ltb_trans with m; [done |].
    by apply float_leb_false. }
  split; [by apply list_lookup_middle |]. split.
  - intros j v Hj Hv. rewrite lookup_app_l in Hv by done. by apply (Hpre j).
  - intros Hx j v Hv. apply lookup_snoc_Some in Hv as [[_ Hv] | [_ <-]].
    + apply float_ltb_leb. by apply (Hpre j).
    + by apply float_leb_refl.
Qed.

Lemma argmax_go_spec rest mp max_ind pre :
  first_max mp max_ind pre →
  ∃ m, first_max m (argmax_go mp max_ind (length pre) rest) (pre ++ rest).
Proof.
  revert mp max_ind pre.
  induction rest as [|x rest IH]; intros mp max_ind pre Hinv.
  - simpl. rewrite app_nil_r. exists mp. by destruct (is_nan mp).
  - simpl. destruct (is_nan mp) eqn:Hnan.
    { exists mp. by apply first_max_nan_app. }
    rewrite (cons_middle x pre rest), app_assoc.
    replace (S (length pre)) with (length (pre ++ [x]))
      by (rewrite length_app; simpl; lia).
    destruct (x <=? mp)%float eqn:Hle; simpl; apply IH.
    + by apply first_max_keep.
    + by apply (first_max_replace mp max_ind).
Qed.

(** [argmax] raises on the empty list only, and returns the first nan,
    or else the first entry that no entry exceeds. *)
Lemma argmax_spec l :
  l ≠ [] → ∃ k m, argmax l = Ok k ∧ first_max m k l.
Proof.
  destruct l as [|x l]; [done |]. intros _. simpl.
  destruct (argmax_go_spec l x 0 [x]) as (m & Hm).
  - split; [done |]. split; [intros; lia |].
    intros Hx j v Hv. apply list_lookup_singleton_Some in Hv as [_ <-].
    by apply float_leb_refl.
  - by exists (argmax_go x 0 1 l), m.
Qed.
End argmax.

(** ** The growth of the lightning path *)

Section growth_properties.
Import Lightning.
Implicit Types (a zn s uniform : ndarray) (st : state).

Lemma aget_aset a ix iy v x y :
  wf a → ix < shape0 a → iy < shape1 a → y < shape1 a →
  aget (aset a ix iy v) x y
  = if decide ((ix, iy) = (x, y)) then v else aget a x y.
Proof.
  intros Hwf Hx Hy Hy'. destruct (decide ((ix, iy) = (x, y))) as [Heq | Heq].
  - injection Heq as <- <-. by apply aget_aset_eq.
  - by apply aget_aset_ne.
Qed.

Lemma mark_neighbours_wf zn Lx Ly ix iy :
  wf zn → wf (mark_neighbours zn Lx Ly ix iy).
Proof.
  intros Hwf. unfold mark_neighbours.
  repeat case_match; repeat apply aset_wf; done.
Qed.

Lemma mark_neighbours_shape zn Lx Ly ix iy :
  same_shape (mark_neighbours zn Lx Ly ix iy) zn.
Proof. unfold mark_neighbours. by repeat case_match. Qed.

Lemma mark_neighbours_fold zn Lx Ly ix iy :
  mark_neighbours zn Lx Ly ix iy
  = foldl (λ a p, aset a p.1 p.2 nan) zn (neighbours Lx Ly ix iy).
Proof.
  unfold mark_neighbours, neighbours.
  destruct (Nat.ltb_spec 0 ix), (Nat.ltb_spec ix (Lx - 1)),
    (Nat.ltb_spec 0 iy), (Nat.ltb_spec iy (Ly - 1));
    repeat first [rewrite bool_decide_eq_true_2 by lia
                 | rewrite bool_decide_eq_false_2 by lia]; reflexivity.
Qed.

Lemma aget_foldl_aset (ps : list (nat * nat)) a v x y :
  wf a → y < shape1 a →
  (∀ p, p ∈ ps → p.1 < shape0 a ∧ p.2 < shape1 a) →
  aget (foldl (λ a p, aset a p.1 p.2 v) a ps) x y
  = if bool_decide ((x, y) ∈ ps) then v else aget a x y.
Proof.
  intros Hwf Hy. induction ps as [|[px py] ps IH] using rev_ind; intros Hps.
  - by rewrite bool_decide_eq_false_2 by apply not_elem_of_nil.
  - rewrite foldl_snoc. simpl.
    assert (∀ p, p ∈ ps → p.1 < shape0 a ∧ p.2 < shape1 a) as Hps'
      by (intros p Hp; apply Hps, elem_of_app; by left).
    destruct (Hps (px, py)) as [Hpx Hpy];
      [apply elem_of_app; right; apply list_elem_of_singleton; done |].
    simpl in Hpx, Hpy.
    assert (∀ qs, wf (foldl (λ a p, aset a p.1 p.2 v) a qs) ∧
              shape0 (foldl (λ a p, aset a p.1 p.2 v) a qs) = shape0 a ∧
              shape1 (foldl (λ a p, aset a p.1 p.2 v) a qs) = shape1 a)
      as Hfold.
    { induction qs as [|q qs IHq] using rev_ind; [done |].
      rewrite foldl_snoc. destruct IHq as (? & ? & ?).
      split; [by apply aset_wf | done]. }
    destruct (Hfold ps) as (Hwf' & Hs0 & Hs1).
    rewrite aget_aset by (done || lia). rewrite IH by done.
    destruct (decide ((px, py) = (x, y))) as [Heq | Heq].
    + injection Heq as -> ->. rewrite bool_decide_eq_true_2; [done |].
      apply elem_of_app. right. by apply list_elem_of_singleton.
    + destruct (bool_decide_reflect ((x, y) ∈ ps)) as [Hin | Hin].
      * rewrite bool_decide_eq_true_2; [done |]. apply elem_of_app. by left.
      * rewrite bool_decide_eq_false_2; [done |].
        rewrite elem_of_app, list_elem_of_singleton. intros [? | ?]; done.
Qed.

(** The four assignments make nan of the in-grid neighbours of the point
    and leave the other entries as they were. *)
Lemma aget_mark_neighbours zn ix iy x y :
  wf zn → ix < shape0 zn → iy < shape1 zn → y < shape1 zn →
  aget (mark_neighbours zn (shape0 zn) (shape1 zn) ix iy) x y
  = if bool_decide ((x, y) ∈ neighbours (shape0 zn) (shape1 zn) ix iy)
    then nan else aget zn x y.
Proof.
  intros Hwf Hix Hiy Hy. rewrite mark_neighbours_fold.
  apply aget_foldl_aset; [done | done |].
  intros p Hp. apply neighbours_spec in Hp as (? & ? & _); done.
Qed.

Lemma aget_amap f a x y :
  wf a → x < shape0 a → y < shape1 a →
  aget (amap f a) x y = f (aget a x y).
Proof.
  intros Hwf Hx Hy. unfold aget, amap. simpl.
  apply list_lookup_total_correct. rewrite list_lookup_fmap.
  rewrite (list_lookup_lookup_total_lt (data a)); [done |].
  rewrite Hwf. by apply flat_index_lt.
Qed.

Lemma aget_amap2 f a a' x y :
  wf a → wf a' → same_shape a a' → x < shape0 a → y < shape1 a →
  aget (amap2 f a a') x y = f (aget a x y) (aget a' x y).
Proof.
  intros Hwf Hwf' [Hs0 Hs1] Hx Hy. unfold aget, amap2. simpl.
  pose proof (flat_index_lt _ _ _ _ Hx Hy) as Hk.
  apply list_lookup_total_correct. rewrite lookup_zip_with.
  rewrite (list_lookup_lookup_total_lt (data a)) by (by rewrite Hwf).
  rewrite <- Hs1.
  rewrite (list_lookup_lookup_total_lt (data a'))
    by (by rewrite Hwf', <- Hs0, <- Hs1).
  done.
Qed.

Lemma amap_wf f a : wf a → wf (amap f a).
Proof. unfold wf. simpl. by rewrite length_fmap. Qed.

Lemma amap2_wf f a a' : wf a → wf a' → same_shape a a' → wf (amap2 f a a').
Proof.
  unfold wf. simpl. intros Ha Ha' [Hs0 Hs1].
  rewrite length_zip_with, Ha, Ha', Hs0, Hs1. lia.
Qed.

Section sprob.
Context (power : float → float → float) (eta : float).
Context (s uniform zn : ndarray).
Context (Hs : wf s) (Hu : wf uniform) (Hzn : wf zn).
Context (Hsu : same_shape s uniform) (Hsz : same_shape s zn).

Lemma sprob_of_wf : wf (sprob_of power eta s uniform zn).
Proof using Hs Hu Hzn Hsu Hsz.
  unfold sprob_of. apply amap2_wf; [apply amap2_wf | |].
  - by apply amap_wf.
  - done.
  - done.
  - by apply amap_wf.
  - done.
Qed.

Lemma sprob_of_shape : same_shape (sprob_of power eta s uniform zn) s.
Proof. done. Qed.

Lemma aget_sprob_of x y :
  x < shape0 s → y < shape1 s →
  aget (sprob_of power eta s uniform zn) x y
  = (power (aget s x y) eta * aget uniform x y
     * isnan_mask (aget zn x y))%float.
Proof using Hs Hu Hzn Hsu Hsz.
  intros Hx Hy. unfold sprob_of. destruct Hsz as [Hz0 Hz1].
  rewrite aget_amap2; [| apply amap2_wf; [by apply amap_wf | done..]
                       | by apply amap_wf | done | done | done].
  rewrite aget_amap2; [| by apply amap_wf | done | done | done | done].
  rewrite !aget_amap; [done | done | lia | lia | done | done | done].
Qed.
End sprob.

Lemma unravel_in_grid Lx Ly k :
  k < Lx * Ly → k / Ly < Lx ∧ k mod Ly < Ly ∧ k = k / Ly * Ly + k mod Ly.
Proof.
  intros Hk. assert (0 < Ly) by (destruct Ly; lia). split; [| split].
  - apply Nat.Div0.div_lt_upper_bound. lia.
  - apply Nat.mod_upper_bound. lia.
  - rewrite Nat.mul_comm. apply Nat.div_mod_eq.
Qed.

(** What [first_max] says of the entries of an array. *)
Lemma first_max_grid a ix iy m :
  wf a → ix < shape0 a → iy < shape1 a →
  first_max m (ix * shape1 a + iy) (data a) →
  m = aget a ix iy ∧
  (∀ x y, x < shape0 a → y < shape1 a →
    x * shape1 a + y < ix * shape1 a + iy → is_nan (aget a x y) = false) ∧
  (is_nan (aget a ix iy) = false →
    ∀ x y, x < shape0 a → y < shape1 a →
      (aget a x y <=? aget a ix iy)%float = true ∧
      (x * shape1 a + y < ix * shape1 a + iy →
        (aget a x y <? aget a ix iy)%float = true)).
Proof.
  intros Hwf Hix Hiy (Hk & Hbefore & Hall).
  assert (∀ x y, x < shape0 a → y < shape1 a →
    data a !! (x * shape1 a + y) = Some (aget a x y)) as Hget.
  { intros x y Hx Hy. apply list_lookup_lookup_total_lt.
    rewrite Hwf. by apply flat_index_lt. }
  assert (m = aget a ix iy) as -> by (rewrite Hget in Hk; congruence).
  split; [done |]. split.
  - intros x y Hx Hy Hlt. by apply (Hbefore _ _ Hlt (Hget x y Hx Hy)).
  - intros Hnan x y Hx Hy. split.
    + by apply (Hall Hnan _ _ (Hget x y Hx Hy)).
    + intros Hlt. by apply (Hbefore _ _ Hlt (Hget x y Hx Hy)).
Qed.

Section step.
Context (power : float → float → float) (Lx Ly nrep : nat) (eta : float).

Lemma growth_loop_unfold fuel u st :
  0 < st_ymin st →
  growth_loop power Lx Ly nrep eta (S fuel) u st
  = st' ← growth_step power Lx Ly nrep eta (u (st_ns st)) st;
    growth_loop power Lx Ly nrep eta fuel u st'.
Proof. intros Hy. simpl. by destruct (Nat.ltb_spec 0 (st_ymin st)); [| lia]. Qed.

Lemma growth_loop_done fuel u st :
  st_ymin st = 0 →
  growth_loop power Lx Ly nrep eta fuel u st = Ok (Some st).
Proof. intros Hy. destruct fuel; simpl; by rewrite Hy. Qed.

(** [C6] One iteration of the path-growth loop, entered with
    [ymin > 0] on a grid that is not empty.  The potential [s] is
    solved for; [sprob] is, entry by entry, [s**eta] times the uniform
    sample times the indicator of nan in [zeroneighbor]; the point
    chosen is the one [argmax] returns: no entry of [sprob] exceeds
    its entry and the entries before it in row-major order are
    smaller (nan counting as the largest value, as in numpy).  The
    iteration sets [b] to 0 there, makes nan of the in-grid neighbours
    of the point in [zeroneighbor] (at most four) and of nothing else,
    increments [ns] and writes it to [c] at the point; the loop ends
    after this iteration exactly when the point is in the top row. *)
Theorem growth_step_spec (u : nat → ndarray) st :
  state_wf Lx Ly st → 0 < Lx → 0 < Ly → ¬ degenerate (st_b st) →
  wf (u (st_ns st)) →
  shape0 (u (st_ns st)) = Lx → shape1 (u (st_ns st)) = Ly →
  0 < st_ymin st →
  ∃ s ix iy st',
    let uniform := u (st_ns st) in
    let sprob := sprob_of power eta s uniform (st_zeroneighbor st) in
    solvepoisson (st_b st) nrep = Ok s ∧
    growth_step power Lx Ly nrep eta uniform st = Ok st' ∧
    (∀ x y, x < Lx → y < Ly →
      aget sprob x y
      = (power (aget s x y) eta * aget uniform x y
         * isnan_mask (aget (st_zeroneighbor st) x y))%float) ∧
    ix < Lx ∧ iy < Ly ∧
    argmax (data sprob) = Ok (ix * Ly + iy) ∧
    unravel_index (ix * Ly + iy) sprob = (ix, iy) ∧
    (∀ x y, x < Lx → y < Ly → x * Ly + y < ix * Ly + iy →
      is_nan (aget sprob x y) = false) ∧
    (is_nan (aget sprob ix iy) = false →
      ∀ x y, x < Lx → y < Ly →
        (aget sprob x y <=? aget sprob ix iy)%float = true ∧
        (x * Ly + y < ix * Ly + iy →
          (aget sprob x y <? aget sprob ix iy)%float = true)) ∧
    st_b st' = aset (st_b st) ix iy 0%float ∧
    (∀ x y, x < Lx → y < Ly →
      aget (st_zeroneighbor st') x y
      = if bool_decide ((x, y) ∈ neighbours Lx Ly ix iy)
        then nan else aget (st_zeroneighbor st) x y) ∧
    length (neighbours Lx Ly ix iy) ≤ 4 ∧
    st_ns st' = st_ns st + 1 ∧
    st_c st' = aset (st_c st) ix iy (float_of_nat (st_ns st + 1)) ∧
    state_wf Lx Ly st' ∧
    (st_ymin st' = 0 ↔ iy = 0) ∧
    (∀ fuel,
      growth_loop power Lx Ly nrep eta (S fuel) u st
      = if decide (iy = 0) then Ok (Some st')
        else growth_loop power Lx Ly nrep eta fuel u st').
Proof.
  intros (Hb & Hb0 & Hb1 & Hc & Hc0 & Hc1 & Hz & Hz0 & Hz1)
    HLx HLy Hnd Hu Hu0 Hu1 Hymin.
  set (uniform := u (st_ns st)) in *.
  set (s := jacobi (st_b st) nrep).
  assert (solvepoisson (st_b st) nrep = Ok s) as Hsolve
    by (by apply solvepoisson_jacobi, not_degenerate_has_neighbours).
  assert (wf s) as Hs by (by apply jacobi_wf).
  destruct (jacobi_shape (st_b st) nrep) as [Hs0 Hs1]. fold s in Hs0, Hs1.
  rewrite Hb0 in Hs0. rewrite Hb1 in Hs1.
  assert (same_shape s uniform) as Hsu by (split; congruence).
  assert (same_shape s (st_zeroneighbor st)) as Hsz by (split; congruence).
  set (sprob := sprob_of power eta s uniform (st_zeroneighbor st)).
  pose proof (sprob_of_wf power eta s uniform (st_zeroneighbor st)
                Hs Hu Hz Hsu Hsz) as Hp.
  fold sprob in Hp.
  assert (shape0 sprob = Lx ∧ shape1 sprob = Ly) as [Hp0 Hp1] by done.
  destruct (argmax_spec (data sprob)) as (k & m & Hk & Hmax).
  { intros Hnil. unfold wf in Hp. rewrite Hnil, Hp0, Hp1 in Hp.
    simpl in Hp. nia. }
  assert (k < Lx * Ly) as Hklt.
  { destruct Hmax as [Hlk _]. apply lookup_lt_Some in Hlk.
    by rewrite Hp, Hp0, Hp1 in Hlk. }
  destruct (unravel_in_grid Lx Ly k Hklt) as (Hix & Hiy & Hkeq).
  set (ix := k / Ly) in *. set (iy := k mod Ly) in *.
  rewrite Hkeq in Hk, Hmax. rewrite <- Hp1 in Hmax at 1.
  apply first_max_grid in Hmax as (_ & Hbefore & Hall);
    [| done | lia | lia].
  rewrite Hp0, Hp1 in Hbefore, Hall.
  assert (growth_step power Lx Ly nrep eta uniform st
          = Ok (State (aset (st_b st) ix iy 0%float)
                  (aset (st_c st) ix iy (float_of_nat (st_ns st + 1)))
                  (mark_neighbours (st_zeroneighbor st) Lx Ly ix iy)
                  (if Nat.ltb iy (st_ymin st) then iy else st_ymin st)
                  (st_ns st + 1))) as Hstep.
  { unfold growth_step. rewrite Hsolve, bind_Ok. cbv beta zeta.
    fold sprob. rewrite Hk, bind_Ok. unfold unravel_index.
    rewrite Hp1, <- Hkeq. by fold ix iy. }
  eexists s, ix, iy, _. cbv zeta. fold uniform sprob.
  split; [done |]. split; [exact Hstep |].
  split.
  { intros x y Hx Hy. apply aget_sprob_of; (done || lia). }
  split; [done |]. split; [done |]. split; [done |].
  split.
  { unfold unravel_index. rewrite Hp1, <- Hkeq. by fold ix iy. }
  split; [done |]. split; [done |]. split; [done |].
  split.
  { intros x y Hx Hy. rewrite <- Hz0, <- Hz1.
    apply aget_mark_neighbours; (done || lia). }
  split.
  { unfold neighbours. repeat case_bool_decide; simpl; lia. }
  split; [done |]. split; [done |].
  assert (st_ymin (State (aset (st_b st) ix iy 0%float)
            (aset (st_c st) ix iy (float_of_nat (st_ns st + 1)))
            (mark_neighbours (st_zeroneighbor st) Lx Ly ix iy)
            (if Nat.ltb iy (st_ymin st) then iy else st_ymin st)
            (st_ns st + 1)) = 0 ↔ iy = 0) as Hend.
  { simpl. destruct (Nat.ltb_spec iy (st_ymin st)); lia. }
  split.
  { unfold state_wf. simpl.
    destruct (mark_neighbours_shape (st_zeroneighbor st) Lx Ly ix iy)
      as [Hm0 Hm1].
    repeat split; try done; try (by apply aset_wf); try congruence.
    by apply mark_neighbours_wf. }
  split; [exact Hend |].
  intros fuel. rewrite growth_loop_unfold by done. fold uniform.
  rewrite Hstep. simpl. destruct (decide (iy = 0)) as [Hz' | Hnz].
  - apply growth_loop_done. by apply Hend.
  - done.
Qed.
End step.
End growth_properties.

(** ** The molecular-dynamics loop *)

Section moldyn_arrays.
Import MolDyn.
Implicit Types (h a b : history) (fr : frame) (t i n : nat).

Lemma shaped_lookup timesteps n h t :
  shaped timesteps n h → t < timesteps → length (h !!! t) = n.
Proof.
  intros [Hlen Hall] Ht. rewrite Forall_lookup in Hall.
  apply (Hall t). apply list_lookup_lookup_total_lt. lia.
Qed.

Lemma shaped_insert timesteps n h t fr :
  shaped timesteps n h → length fr = n → shaped timesteps n (<[t := fr]> h).
Proof.
  intros [Hlen Hall] Hfr. split; [by rewrite length_insert |].
  by apply Forall_insert.
Qed.

Lemma shaped_zeros timesteps n : shaped timesteps n (zeros timesteps n).
Proof.
  unfold zeros. split; [by rewrite length_replicate |].
  apply Forall_replicate. by rewrite length_replicate.
Qed.

(** A loop over [i] that assigns [h[t, i]] rewrites the frame [t]. *)
Lemma hset_loop (F : nat → vec * vec) t n a b :
  t < length a → t < length b →
  length (a !!! t) = n → length (b !!! t) = n →
  foldl (λ '(a, b) i, let '(x, y) := F i in (hset a t i x, hset b t i y))
    (a, b) (seq 0 n)
  = (<[t := (λ i, (F i).1) <$> seq 0 n]> a,
     <[t := (λ i, (F i).2) <$> seq 0 n]> b).
Proof.
  intros Ha Hb Hna Hnb.
  assert (∀ k, k ≤ n →
    foldl (λ '(a, b) i, let '(x, y) := F i in (hset a t i x, hset b t i y))
      (a, b) (seq 0 k)
    = (<[t := ((λ i, (F i).1) <$> seq 0 k) ++ drop k (a !!! t)]> a,
       <[t := ((λ i, (F i).2) <$> seq 0 k) ++ drop k (b !!! t)]> b)) as Hk.
  { induction k as [|k IH]; intros Hle.
    - simpl. by rewrite !list_insert_id by (by apply list_lookup_lookup_total_lt).
    - rewrite seq_S, foldl_snoc, IH by lia. simpl.
      destruct (F k) as [x y] eqn:HF. unfold hset.
      rewrite !list_lookup_total_insert_eq by done.
      rewrite !list_insert_insert_eq. rewrite !fmap_app. simpl. rewrite HF.
      simpl.
      destruct (lookup_lt_is_Some_2 (a !!! t) k) as [xa Hxa]; [lia |].
      destruct (lookup_lt_is_Some_2 (b !!! t) k) as [xb Hxb]; [lia |].
      rewrite (drop_S _ _ _ Hxa), (drop_S _ _ _ Hxb).
      rewrite !insert_app_r_alt by (rewrite length_fmap, length_seq; lia).
      rewrite !length_fmap, !length_seq, Nat.sub_diag. simpl.
      by rewrite <- !app_assoc. }
  rewrite Hk by done. rewrite !drop_ge by lia. by rewrite !app_nil_r.
Qed.
End moldyn_arrays.

Section moldyn_step.
Import MolDyn.
Implicit Types (dot : vec → vec → float).
Implicit Types (h : history) (st : state) (t n : nat).

Lemma spring_loop_frames dot n t pH pCl sH sCl :
  t < length sH → t < length sCl →
  length (sH !!! t) = n → length (sCl !!! t) = n →
  spring_loop dot n t pH pCl sH sCl
  = (<[t := (spring_frames dot n (pH !!! t) (pCl !!! t)).1]> sH,
     <[t := (spring_frames dot n (pH !!! t) (pCl !!! t)).2]> sCl).
Proof.
  intros. unfold spring_loop, spring_frames, hget.
  by apply (hset_loop
    (λ i, spring_acc dot ((pH !!! t) !!! i) ((pCl !!! t) !!! i))).
Qed.

Lemma coulomb_loop_frames n t pH pCl cH cCl :
  t < length cH → t < length cCl →
  length (cH !!! t) = n → length (cCl !!! t) = n →
  coulomb_loop n t pH pCl cH cCl
  = (<[t := (coulomb_frames n (pH !!! t) (pCl !!! t)).1]> cH,
     <[t := (coulomb_frames n (pH !!! t) (pCl !!! t)).2]> cCl).
Proof.
  intros. unfold coulomb_loop, coulomb_frames.
  by apply (hset_loop (λ i, coulomb_acc n i (pH !!! t) (pCl !!! t))).
Qed.

Lemma length_fadd (a b : frame) n :
  length a = n → length b = n → length (fadd a b) = n.
Proof. intros. unfold fadd. rewrite length_zip_with. lia. Qed.

Lemma length_fscale (a : frame) c : length (fscale a c) = length a.
Proof. unfold fscale. by rewrite length_fmap. Qed.

Lemma length_spring_frames dot n pH pCl :
  length (spring_frames dot n pH pCl).1 = n ∧
  length (spring_frames dot n pH pCl).2 = n.
Proof. simpl. by rewrite !length_fmap, !length_seq. Qed.

Lemma length_coulomb_frames n pH pCl :
  length (coulomb_frames n pH pCl).1 = n ∧
  length (coulomb_frames n pH pCl).2 = n.
Proof. simpl. by rewrite !length_fmap, !length_seq. Qed.

Lemma shaped_length T n h : shaped T n h → length h = T.
Proof. by intros [? _]. Qed.

Local Ltac proj_simpl :=
  cbn [position_H position_Cl velocity_H velocity_Cl acceleration_H
       acceleration_Cl coulomb_acc_H coulomb_acc_Cl spring_acc_H
       spring_acc_Cl output iterations].

(** One iteration of the time loop: what it writes, and what it leaves
    as it was. *)
Lemma md_step_spec dot T n t st out :
  state_shaped T n st → t + 1 < T →
  progress T t (output st) = Ok out →
  ∃ st', md_step dot T n t st = Ok st' ∧
    state_shaped T n st' ∧
    output st' = out ∧ iterations st' = S (iterations st) ∧
    integrated dot n t st' ∧
    (∀ t', t' ≤ t →
      position_H st' !!! t' = position_H st !!! t' ∧
      position_Cl st' !!! t' = position_Cl st !!! t' ∧
      velocity_H st' !!! t' = velocity_H st !!! t' ∧
      velocity_Cl st' !!! t' = velocity_Cl st !!! t') ∧
    (∀ t', t' ≠ t →
      acceleration_H st' !!! t' = acceleration_H st !!! t' ∧
      acceleration_Cl st' !!! t' = acceleration_Cl st !!! t' ∧
      coulomb_acc_H st' !!! t' = coulomb_acc_H st !!! t' ∧
      coulomb_acc_Cl st' !!! t' = coulomb_acc_Cl st !!! t' ∧
      spring_acc_H st' !!! t' = spring_acc_H st !!! t' ∧
      spring_acc_Cl st' !!! t' = spring_acc_Cl st !!! t').
Proof.
  intros (HpH & HpCl & HvH & HvCl & HaH & HaCl & HcH & HcCl & HsH & HsCl)
    Ht Hout.
  assert (∀ h, shaped T n h → t < length h ∧ t + 1 < length h) as Hlen
    by (intros h [-> _]; lia).
  assert (∀ h t', shaped T n h → t' ≤ t + 1 → length (h !!! t') = n) as Hrow
    by (intros h t' Hh Ht'; apply (shaped_lookup T n h); [done | lia]).
  unfold md_step.
  rewrite spring_loop_frames
    by first [by apply Hlen | apply Hrow; [done | lia]].
  rewrite coulomb_loop_frames
    by first [by apply Hlen | apply Hrow; [done | lia]].
  cbv beta iota zeta. rewrite Hout, bind_Ok.
  eexists. split; [reflexivity |].
  split.
  { set (sH := <[t := _]> (spring_acc_H st)).
    set (sCl := <[t := _]> (spring_acc_Cl st)).
    set (cH := <[t := _]> (coulomb_acc_H st)).
    set (cCl := <[t := _]> (coulomb_acc_Cl st)).
    assert (shaped T n sH) as HsH'
      by (apply shaped_insert; [done | apply length_spring_frames]).
    assert (shaped T n sCl) as HsCl'
      by (apply shaped_insert; [done | apply length_spring_frames]).
    assert (shaped T n cH) as HcH'
      by (apply shaped_insert; [done | apply length_coulomb_frames]).
    assert (shaped T n cCl) as HcCl'
      by (apply shaped_insert; [done | apply length_coulomb_frames]).
    clearbody sH sCl cH cCl.
    set (aH := <[t := _]> (acceleration_H st)).
    set (aCl := <[t := _]> (acceleration_Cl st)).
    assert (shaped T n aH) as HaH'
      by (apply shaped_insert; [done |];
          apply length_fadd; apply Hrow; (done || lia)).
    assert (shaped T n aCl) as HaCl'
      by (apply shaped_insert; [done |];
          apply length_fadd; apply Hrow; (done || lia)).
    clearbody aH aCl.
    set (vH := <[t + 1 := _]> (velocity_H st)).
    set (vCl := <[t + 1 := _]> (velocity_Cl st)).
    assert (shaped T n vH) as HvH'
      by (apply shaped_insert; [done |];
          apply length_fadd; rewrite ?length_fscale; apply Hrow; (done || lia)).
    assert (shaped T n vCl) as HvCl'
      by (apply shaped_insert; [done |];
          apply length_fadd; rewrite ?length_fscale; apply Hrow; (done || lia)).
    clearbody vH vCl.
    unfold state_shaped. proj_simpl.
    repeat match goal with |- _ ∧ _ => split end; try done;
      (apply shaped_insert; [done |]; apply length_fadd;
       rewrite ?length_fscale; apply Hrow; (done || lia)). }
  split; [done |]. split; [done |]. split.
  { unfold integrated. proj_simpl.
    rewrite !list_lookup_total_insert_eq by (by apply Hlen).
    rewrite !list_lookup_total_insert_ne by lia. done. }
  split.
  - intros t' Ht'. proj_simpl.
    by rewrite !list_lookup_total_insert_ne by lia.
  - intros t' Ht'. proj_simpl.
    by rewrite !list_lookup_total_insert_ne by done.
Qed.
End moldyn_step.

Section moldyn_loop.
Import MolDyn.
Implicit Types (dot : vec → vec → float).
Implicit Types (h : history) (st : state) (t n T : nat).

Lemma progress_steps_S T t :
  progress_steps T (S t)
  = progress_steps T t ++
    (if decide (t ≠ 0 ∧ t mod progress_period T = 0) then [t] else []).
Proof.
  unfold progress_steps. rewrite seq_S, filter_app. by f_equal.
Qed.

(** The [if] that prints raises nothing at step 0, and nothing at any
    step when [int(timesteps/20)] is not 0. *)
Lemma progress_ok T t out :
  t = 0 ∨ progress_period T ≠ 0 →
  progress T t (out ++ progress_lines T t)
  = Ok (out ++ progress_lines T (S t)).
Proof.
  intros Hok. unfold progress, progress_lines.
  rewrite progress_steps_S, fmap_app.
  destruct (decide (t ≠ 0 ∧ t mod progress_period T = 0)) as [[Ht Hm] | Hn].
  - destruct Hok as [? | Hp]; [done |].
    rewrite (proj2 (Nat.eqb_neq t 0) Ht). cbn [negb].
    rewrite (proj2 (Nat.eqb_neq _ 0) Hp), Hm. cbn [Nat.eqb].
    by rewrite app_assoc.
  - rewrite app_nil_r. destruct (Nat.eqb_spec t 0) as [-> | Ht]; [done |].
    cbn [negb]. destruct Hok as [? | Hp]; [done |].
    rewrite (proj2 (Nat.eqb_neq _ 0) Hp).
    destruct (Nat.eqb_spec (t mod progress_period T) 0) as [Hm | Hm];
      [| done].
    destruct Hn. done.
Qed.

Lemma integrated_frame dot n t st st' :
  integrated dot n t st →
  (∀ t', t' ≤ t + 1 →
    position_H st' !!! t' = position_H st !!! t' ∧
    position_Cl st' !!! t' = position_Cl st !!! t' ∧
    velocity_H st' !!! t' = velocity_H st !!! t' ∧
    velocity_Cl st' !!! t' = velocity_Cl st !!! t') →
  (acceleration_H st' !!! t = acceleration_H st !!! t ∧
   acceleration_Cl st' !!! t = acceleration_Cl st !!! t ∧
   coulomb_acc_H st' !!! t = coulomb_acc_H st !!! t ∧
   coulomb_acc_Cl st' !!! t = coulomb_acc_Cl st !!! t ∧
   spring_acc_H st' !!! t = spring_acc_H st !!! t ∧
   spring_acc_Cl st' !!! t = spring_acc_Cl st !!! t) →
  integrated dot n t st'.
Proof.
  intros (H1 & H2 & H3 & H4 & H5 & H6 & H7 & H8 & H9 & H10) Hpv
    (Ha & Ha' & Hc & Hc' & Hs & Hs').
  destruct (Hpv t) as (Hp0 & Hp0' & Hv0 & Hv0'); [lia |].
  destruct (Hpv (t + 1)) as (Hp1 & Hp1' & Hv1 & Hv1'); [lia |].
  unfold integrated.
  rewrite Ha, Ha', Hc, Hc', Hs, Hs', Hp0, Hp0', Hv0, Hv0', Hp1, Hp1',
    Hv1, Hv1'.
  done.
Qed.

(** The time loop, from any state whose arrays are allocated: it raises
    nothing when [int(timesteps/20)] is not 0, every step is integrated
    in the arrays it returns, and it has printed the progress lines and
    the summary. *)
Lemma md_loop_spec dot T n st0 :
  state_shaped T n st0 → T ≤ 2 ∨ progress_period T ≠ 0 →
  ∃ st, md_loop dot T n st0 = Ok st ∧
    state_shaped T n st ∧
    iterations st = iterations st0 + (T - 1) ∧
    output st
      = output st0 ++ progress_lines T (T - 1) ++ [Summary n T] ∧
    (∀ t, t < T - 1 → integrated dot n t st).
Proof.
  intros Hshape Hok. unfold md_loop.
  destruct (for_range_inv
    (λ k st, state_shaped T n st ∧
             iterations st = iterations st0 + k ∧
             output st = output st0 ++ progress_lines T k ∧
             ∀ t, t < k → integrated dot n t st)
    (md_step dot T n) (T - 1) st0) as (st & -> & Hsh & Hit & Hout & Hint).
  - split; [done |]. split; [lia |].
    split; [by rewrite app_nil_r |]. intros; lia.
  - intros k st Hk (Hsh & Hit & Hout & Hint).
    destruct (md_step_spec dot T n k st
                (output st0 ++ progress_lines T (S k)))
      as (st' & Hstep & Hsh' & Hout' & Hit' & Hint' & Hpv & Hacc).
    + done.
    + lia.
    + rewrite Hout. apply progress_ok. destruct Hok; [left | right]; lia.
    + exists st'. split; [done |]. split; [done |].
      split; [lia |]. split; [done |].
      intros t Ht. destruct (decide (t = k)) as [-> | Hne]; [done |].
      apply (integrated_frame dot n t st).
      * apply Hint. lia.
      * intros t' Ht'. apply Hpv. lia.
      * by apply Hacc.
  - rewrite bind_Ok. eexists. split; [reflexivity |]. simpl.
    split; [done |]. split; [done |]. split; [| done].
    by rewrite Hout, <- app_assoc.
Qed.
(** The time loop with the frames it leaves alone: frame 0 of the
    positions and velocities, and the frames from [timesteps - 1] on of
    the accelerations. *)
Lemma md_loop_frames dot T n st0 :
  state_shaped T n st0 → T ≤ 2 ∨ progress_period T ≠ 0 →
  ∃ st, md_loop dot T n st0 = Ok st ∧
    state_shaped T n st ∧
    iterations st = iterations st0 + (T - 1) ∧
    output st
      = output st0 ++ progress_lines T (T - 1) ++ [Summary n T] ∧
    (∀ t, t < T - 1 → integrated dot n t st) ∧
    (position_H st !!! 0 = position_H st0 !!! 0 ∧
     position_Cl st !!! 0 = position_Cl st0 !!! 0 ∧
     velocity_H st !!! 0 = velocity_H st0 !!! 0 ∧
     velocity_Cl st !!! 0 = velocity_Cl st0 !!! 0) ∧
    (∀ t, T - 1 ≤ t →
      acceleration_H st !!! t = acceleration_H st0 !!! t ∧
      acceleration_Cl st !!! t = acceleration_Cl st0 !!! t ∧
      coulomb_acc_H st !!! t = coulomb_acc_H st0 !!! t ∧
      coulomb_acc_Cl st !!! t = coulomb_acc_Cl st0 !!! t ∧
      spring_acc_H st !!! t = spring_acc_H st0 !!! t ∧
      spring_acc_Cl st !!! t = spring_acc_Cl st0 !!! t).
Proof.
  intros Hshape Hok. unfold md_loop.
  destruct (for_range_inv
    (λ k st, state_shaped T n st ∧
             iterations st = iterations st0 + k ∧
             output st = output st0 ++ progress_lines T k ∧
             (∀ t, t < k → integrated dot n t st) ∧
             (position_H st !!! 0 = position_H st0 !!! 0 ∧
              position_Cl st !!! 0 = position_Cl st0 !!! 0 ∧
              velocity_H st !!! 0 = velocity_H st0 !!! 0 ∧
              velocity_Cl st !!! 0 = velocity_Cl st0 !!! 0) ∧
             (∀ t, k ≤ t →
               acceleration_H st !!! t = acceleration_H st0 !!! t ∧
               acceleration_Cl st !!! t = acceleration_Cl st0 !!! t ∧
               coulomb_acc_H st !!! t = coulomb_acc_H st0 !!! t ∧
               coulomb_acc_Cl st !!! t = coulomb_acc_Cl st0 !!! t ∧
               spring_acc_H st !!! t = spring_acc_H st0 !!! t ∧
               spring_acc_Cl st !!! t = spring_acc_Cl st0 !!! t))
    (md_step dot T n) (T - 1) st0)
    as (st & -> & Hsh & Hit & Hout & Hint & Hfirst & Hlast).
  - split; [done |]. split; [lia |].
    split; [by rewrite app_nil_r |]. split; [intros; lia |]. done.
  - intros k st Hk (Hsh & Hit & Hout & Hint & Hfirst & Hlast).
    destruct (md_step_spec dot T n k st
                (output st0 ++ progress_lines T (S k)))
      as (st' & Hstep & Hsh' & Hout' & Hit' & Hint' & Hpv & Hacc).
    + done.
    + lia.
    + rewrite Hout. apply progress_ok. destruct Hok; [left | right]; lia.
    + exists st'. split; [done |]. split; [done |].
      split; [lia |]. split; [done |]. split; [| split].
      * intros t Ht. destruct (decide (t = k)) as [-> | Hne]; [done |].
        apply (integrated_frame dot n t st).
        -- apply Hint. lia.
        -- intros t' Ht'. apply Hpv. lia.
        -- by apply Hacc.
      * destruct (Hpv 0) as (-> & -> & -> & ->); [lia | done].
      * intros t Ht.
        destruct (Hacc t) as (-> & -> & -> & -> & -> & ->); [lia |].
        apply Hlast. lia.
  - rewrite bind_Ok. eexists. split; [reflexivity |]. simpl.
    split; [done |]. split; [done |]. split; [| done].
    by rewrite Hout, <- app_assoc.
Qed.
End moldyn_loop.

(** ** Opposite forces *)

Section float_opp.
Lemma binary_round_aux_opp prec emax sx mx ex lx :
  binary_round_aux prec emax (negb sx) mx ex lx
  = SFopp (binary_round_aux prec emax sx mx ex lx).
Proof.
  unfold binary_round_aux.
  destruct (shr_fexp prec emax mx ex lx) as [mrs' e'].
  destruct (shr_fexp prec emax _ e' loc_Exact) as [mrs'' e''].
  destruct (shr_m mrs''); [done | | done].
  by destruct (_ <=? _)%Z.
Qed.

Lemma SFmul_opp_l prec emax f g :
  SFmul prec emax (SFopp f) g = SFopp (SFmul prec emax f g).
Proof.
  destruct f as [sf|sf| |sf mf ef], g as [sg|sg| |sg mg eg]; simpl;
    try done; try (by destruct sf, sg).
  rewrite <- binary_round_aux_opp. by destruct sf, sg.
Qed.

(** Negation commutes with the rounded product: [(-x)*y] and [-(x*y)]
    are the same float. *)
Lemma float_opp_mul x y : (- x * y)%float = (- (x * y))%float.
Proof.
  apply Prim2SF_inj.
  rewrite FloatAxioms.mul_spec, !FloatAxioms.opp_spec, FloatAxioms.mul_spec.
  apply SFmul_opp_l.
Qed.
End float_opp.

(** ** [make_liquid] *)

Section make_liquid.
Import MolDyn.

Lemma length_linspace start stop num : length (linspace start stop num) = num.
Proof.
  unfold linspace.
  repeat case_match; rewrite ?length_insert, ?length_fmap, ?length_seq; done.
Qed.

Lemma length_ravel_mesh_x (xx yy : list float) :
  length (ravel_mesh_x xx yy) = length yy * length xx.
Proof.
  unfold ravel_mesh_x. induction yy as [|y yy IH]; [done |].
  rewrite bind_cons, length_app, IH. simpl. lia.
Qed.

Lemma length_ravel_mesh_y (xx yy : list float) :
  length (ravel_mesh_y xx yy) = length yy * length xx.
Proof.
  unfold ravel_mesh_y. induction yy as [|y yy IH]; [done |].
  rewrite bind_cons, length_app, length_fmap, IH. simpl. lia.
Qed.

(** Row [k / len(xx)] of the mesh, column [k mod len(xx)]. *)
Lemma lookup_ravel_mesh (xx yy : list float) k :
  k < length yy * length xx →
  ravel_mesh_x xx yy !!! k = xx !!! (k mod length xx) ∧
  ravel_mesh_y xx yy !!! k = yy !!! (k / length xx).
Proof.
  unfold ravel_mesh_x, ravel_mesh_y. revert k.
  induction yy as [|y yy IH]; intros k Hk; [simpl in Hk; lia |].
  assert (0 < length xx) by (destruct xx; simpl in *; lia).
  rewrite !bind_cons. destruct (decide (k < length xx)) as [Hlt | Hge].
  - rewrite !lookup_total_app_l by (by rewrite ?length_fmap).
    rewrite Nat.mod_small, Nat.div_small by done. split; [done |].
    apply list_lookup_total_correct. rewrite list_lookup_fmap.
    by rewrite (list_lookup_lookup_total_lt xx) by done.
  - rewrite !lookup_total_app_r by (rewrite ?length_fmap; lia).
    rewrite length_fmap. destruct (IH (k - length xx)) as [-> ->].
    { simpl in Hk. lia. }
    replace k with ((k - length xx) + 1 * length xx) at 2 4 by lia.
    rewrite Nat.Div0.mod_add, Nat.div_add by lia.
    by rewrite Nat.add_1_r.
Qed.

Lemma broadcast_column_same n values :
  length values = n → broadcast_column n values = Ok values.
Proof. intros Hn. unfold broadcast_column. by rewrite decide_True. Qed.

(** [C9], as stated, fails for the values of the notebook and a sample
    whose rows are all (1, 0): the two atoms of molecule 0 are not
    [bond_length] apart, neither as [np.linalg.norm] computes their
    distance nor in exact arithmetic on the returned floats, and the
    exact midpoint of the atoms of molecule 1 is not the grid point. *)
Lemma make_liquid_not_exact :
  ∃ hydrogen chlorine,
    make_liquid num_molecules bond_length grid_dims side_lengths
      normal_along_x = Ok (hydrogen, chlorine) ∧
    let h0 := hydrogen !!! 0 in
    let c0 := chlorine !!! 0 in
    let h1 := hydrogen !!! 1 in
    let c1 := chlorine !!! 1 in
    let m1 := centre grid_dims side_lengths 1 in
    let direction := normal_along_x !!! 0 in
    (norm direction =? 1)%float = true ∧
    (norm (vsub c0 h0) =? bond_length)%float = false ∧
    ((exact c0.1 - exact h0.1) ^ 2 + (exact c0.2 - exact h0.2) ^ 2
     =? exact bond_length ^ 2)%Z = false ∧
    (exact h1.1 + exact c1.1 =? 2 * exact m1.1)%Z = false.
Proof.
  eexists _, _. split; [vm_compute; reflexivity |].
  repeat split; vm_compute; reflexivity.
Qed.

(** [C9], amended.  [make_liquid] returns, for each molecule [k], the
    hydrogen at [centre - pos/2] and the chlorine at [centre + pos/2],
    where [centre] is point [(k mod grid_dims[0], k / grid_dims[0])] of
    the grid of the two [linspace]s and [pos] is the sampled row divided
    by its norm and multiplied by [bond_length]. *)
Theorem make_liquid_positions n L grid side normal :
  length normal = n → grid.1 * grid.2 = n →
  ∃ hydrogen chlorine,
    make_liquid n L grid side normal = Ok (hydrogen, chlorine) ∧
    length hydrogen = n ∧ length chlorine = n ∧
    ∀ k, k < n →
      hydrogen !!! k
        = vsub (centre grid side k) (vdiv (bond_vector L normal k) 2%float) ∧
      chlorine !!! k
        = vadd (centre grid side k) (vdiv (bond_vector L normal k) 2%float).
Proof.
  intros Hn Hgrid. destruct grid as [nx ny]. simpl in Hgrid.
  unfold make_liquid. cbn [fst snd].
  set (xx := linspace _ _ nx). set (yy := linspace _ _ ny).
  assert (length xx = nx) as Hxx by apply length_linspace.
  assert (length yy = ny) as Hyy by apply length_linspace.
  rewrite !broadcast_column_same, !bind_Ok
    by (rewrite ?length_ravel_mesh_x, ?length_ravel_mesh_y; lia).
  eexists _, _. split; [reflexivity |].
  assert (∀ k, k < n →
    zip (ravel_mesh_x xx yy) (ravel_mesh_y xx yy) !! k
      = Some (centre (nx, ny) side k) ∧
    zip_with (λ p r, vscale (vdiv p r) L) normal (norm <$> normal) !! k
      = Some (bond_vector L normal k)) as Hk.
  { intros k Hlt. split.
    - rewrite lookup_zip_with.
      destruct (lookup_ravel_mesh xx yy k) as [Hx Hy]; [lia |].
      rewrite (list_lookup_lookup_total_lt (ravel_mesh_x xx yy))
        by (rewrite length_ravel_mesh_x; lia).
      rewrite (list_lookup_lookup_total_lt (ravel_mesh_y xx yy))
        by (rewrite length_ravel_mesh_y; lia).
      simpl. rewrite Hx, Hy, Hxx. done.
    - rewrite lookup_zip_with, list_lookup_fmap.
      rewrite (list_lookup_lookup_total_lt normal) by lia. done. }
  split; [| split].
  - rewrite length_zip_with, length_zip, length_zip_with, length_fmap.
    rewrite length_ravel_mesh_x, length_ravel_mesh_y. lia.
  - rewrite length_zip_with, length_zip, length_zip_with, length_fmap.
    rewrite length_ravel_mesh_x, length_ravel_mesh_y. lia.
  - intros k Hlt. destruct (Hk k Hlt) as [Hc Hp].
    split; apply list_lookup_total_correct;
      by rewrite lookup_zip_with, Hc, Hp.
Qed.

(** [C9], witness: the notebook's grid, with the sample [normal_along_x]. *)
Lemma make_liquid_positions_witness :
  ∃ hydrogen chlorine,
    make_liquid num_molecules bond_length grid_dims side_lengths
      normal_along_x = Ok (hydrogen, chlorine) ∧
    length hydrogen = num_molecules ∧ length chlorine = num_molecules ∧
    ∀ k, k < num_molecules →
      hydrogen !!! k
        = vsub (centre grid_dims side_lengths k)
            (vdiv (bond_vector bond_length normal_along_x k) 2%float) ∧
      chlorine !!! k
        = vadd (centre grid_dims side_lengths k)
            (vdiv (bond_vector bond_length normal_along_x k) 2%float).
Proof.
  apply (make_liquid_positions num_molecules bond_length grid_dims
           side_lengths normal_along_x); reflexivity.
Defined.
End make_liquid.

(** ** The claims on the integration loop *)

Section moldyn_claims.
Import MolDyn.
Implicit Types (dot : vec → vec → float).
Implicit Types (h : history) (st : state) (t n T i : nat).

Lemma allocated_shaped T n hydrogen chlorine :
  length hydrogen = n → length chlorine = n →
  state_shaped T n (allocated T n hydrogen chlorine).
Proof.
  intros Hh Hc. unfold state_shaped, allocated. simpl.
  pose proof (shaped_zeros T n).
  repeat match goal with |- _ ∧ _ => split end;
    try done; by apply shaped_insert.
Qed.

Lemma lookup_total_fadd (a b : frame) i :
  i < length a → i < length b → fadd a b !!! i = vadd (a !!! i) (b !!! i).
Proof.
  intros Ha Hb. apply list_lookup_total_correct. unfold fadd.
  rewrite lookup_zip_with.
  by rewrite (list_lookup_lookup_total_lt a), (list_lookup_lookup_total_lt b).
Qed.

Lemma lookup_total_fscale (a : frame) c i :
  i < length a → fscale a c !!! i = vscale (a !!! i) c.
Proof.
  intros Ha. apply list_lookup_total_correct. unfold fscale.
  by rewrite list_lookup_fmap, (list_lookup_lookup_total_lt a).
Qed.

Lemma lookup_total_fmap_seq {A} `{!Inhabited A} (f : nat → A) n i :
  i < n → (f <$> seq 0 n) !!! i = f i.
Proof.
  intros Hi. apply list_lookup_total_correct.
  by rewrite list_lookup_fmap, lookup_seq_lt.
Qed.

(** [C1] The time loop returns, and in the arrays it returns the
    integration starts from frame 0 of the positions and velocities it
    was given; for every step [t] from 0 to [timesteps-2] and every
    molecule, the spring and Coulomb accelerations stored at [t] are
    those that the two inner loops compute from the positions at [t],
    the acceleration of each atom at [t] is the sum of its Coulomb and
    spring accelerations at [t], its velocity at [t+1] is the velocity
    at [t] plus the acceleration at [t] times [dt], and its position at
    [t+1] is the position at [t] plus the velocity at [t+1], the one
    just computed, times [dt]. *)
Theorem euler_cromer dot T n st0 :
  state_shaped T n st0 → T ≤ 2 ∨ progress_period T ≠ 0 →
  ∃ st, md_loop dot T n st0 = Ok st ∧
    position_H st !!! 0 = position_H st0 !!! 0 ∧
    position_Cl st !!! 0 = position_Cl st0 !!! 0 ∧
    velocity_H st !!! 0 = velocity_H st0 !!! 0 ∧
    velocity_Cl st !!! 0 = velocity_Cl st0 !!! 0 ∧
    ∀ t i, t < T - 1 → i < n →
      hget (spring_acc_H st) t i
        = (spring_acc dot (hget (position_H st) t i)
             (hget (position_Cl st) t i)).1 ∧
      hget (spring_acc_Cl st) t i
        = (spring_acc dot (hget (position_H st) t i)
             (hget (position_Cl st) t i)).2 ∧
      hget (coulomb_acc_H st) t i
        = (coulomb_acc n i (position_H st !!! t) (position_Cl st !!! t)).1 ∧
      hget (coulomb_acc_Cl st) t i
        = (coulomb_acc n i (position_H st !!! t) (position_Cl st !!! t)).2 ∧
      hget (acceleration_H st) t i
        = vadd (hget (coulomb_acc_H st) t i) (hget (spring_acc_H st) t i) ∧
      hget (acceleration_Cl st) t i
        = vadd (hget (coulomb_acc_Cl st) t i) (hget (spring_acc_Cl st) t i) ∧
      hget (velocity_H st) (t + 1) i
        = vadd (hget (velocity_H st) t i)
               (vscale (hget (acceleration_H st) t i) dt) ∧
      hget (velocity_Cl st) (t + 1) i
        = vadd (hget (velocity_Cl st) t i)
               (vscale (hget (acceleration_Cl st) t i) dt) ∧
      hget (position_H st) (t + 1) i
        = vadd (hget (position_H st) t i)
               (vscale (hget (velocity_H st) (t + 1) i) dt) ∧
      hget (position_Cl st) (t + 1) i
        = vadd (hget (position_Cl st) t i)
               (vscale (hget (velocity_Cl st) (t + 1) i) dt).
Proof.
  intros Hshape Hok.
  destruct (md_loop_frames dot T n st0 Hshape Hok)
    as (st & Hrun & Hsh & _ & _ & Hint & (Hp0 & Hp0' & Hv0 & Hv0') & _).
  exists st. split; [done |].
  split; [done |]. split; [done |]. split; [done |]. split; [done |].
  intros t i Ht Hi.
  destruct Hsh
    as (HpH & HpCl & HvH & HvCl & HaH & HaCl & HcH & HcCl & HsH & HsCl).
  destruct (Hint t Ht)
    as (H1 & H2 & H3 & H4 & H5 & H6 & H7 & H8 & H9 & H10).
  assert (∀ h t', shaped T n h → t' ≤ t + 1 → i < length (h !!! t')) as Hlen.
  { intros h t' Hh Ht'. rewrite (shaped_lookup T n h t' Hh); lia. }
  apply (f_equal (λ fr : frame, fr !!! i))
    in H1, H2, H3, H4, H5, H6, H7, H8, H9, H10.
  unfold spring_frames in H1, H2. unfold coulomb_frames in H3, H4.
  cbn [fst snd] in H1, H2, H3, H4.
  rewrite lookup_total_fmap_seq in H1, H2, H3, H4 by done.
  rewrite lookup_total_fadd in H5, H6, H7, H8, H9, H10
    by (rewrite ?length_fscale; apply Hlen; (done || lia)).
  rewrite lookup_total_fscale in H7, H8, H9, H10
    by (apply Hlen; (done || lia)).
  unfold hget. done.
Qed.

(** [C1], witness: the first step of the hydrogen of molecule 0 of
    [two_molecules], from the position and the velocity it is given. *)
Lemma euler_cromer_witness :
  ∃ st, md_loop dot_fused 21 2 two_molecules = Ok st ∧
    hget (position_H st) 0 0 = (0%float, 0%float) ∧
    hget (velocity_H st) 0 0 = (0%float, 0%float) ∧
    hget (velocity_H st) 1 0
      = vadd (hget (velocity_H st) 0 0)
             (vscale (hget (acceleration_H st) 0 0) dt) ∧
    hget (position_H st) 1 0
      = vadd (hget (position_H st) 0 0)
             (vscale (hget (velocity_H st) 1 0) dt).
Proof.
  destruct (euler_cromer dot_fused 21 2 two_molecules)
    as (st & Hrun & Hp0 & _ & Hv0 & _ & Hst).
  - apply allocated_shaped; reflexivity.
  - right. vm_compute. lia.
  - exists st. split; [exact Hrun |]. unfold hget at 1 2.
    rewrite Hp0, Hv0. split; [reflexivity |]. split; [reflexivity |].
    destruct (Hst 0 0) as (_ & _ & _ & _ & _ & _ & Hv & _ & Hp & _);
      [lia | lia |].
    split; [exact Hv | exact Hp].
Defined.

(** *** The spring *)

(** The norm of the spring loop depends on the routine in its last bit:
    for the vector (1e-11, 4e-11) the fused product gives the mantissa
    ...623 and the rounded products ...624, as [np.linalg.norm] along an
    axis does. *)
Lemma norm_1d_last_bit :
  let v := (1e-11%float, 4e-11%float) in
  Prim2SF (norm_1d dot_fused v) = S754_finite false 6380196925193623 (-87) ∧
  Prim2SF (norm_1d dot_plain v) = S754_finite false 6380196925193624 (-87) ∧
  norm v = norm_1d dot_plain v.
Proof. repeat split; vm_compute; reflexivity. Qed.

(** [C4], as stated, fails: in the loop run on [two_molecules] the two
    spring accelerations of molecule 0 at step 0, weighted by the masses,
    do not add up to 0 along the first axis (the divisions by the masses
    round); and for two atoms at the same place the unit vector is 0/0, so
    that the weighted sum is nan.  Both hold whether the product under
    the norm is fused or not. *)
Lemma spring_momentum_not_zero :
  (∃ st, md_loop dot_fused 21 2 two_molecules = Ok st ∧
    let a_H := hget (spring_acc_H st) 0 0 in
    let a_Cl := hget (spring_acc_Cl st) 0 0 in
    (mass_H * a_H.1 + mass_Cl * a_Cl.1 =? 0)%float = false) ∧
  (∃ st, md_loop dot_plain 21 2 two_molecules = Ok st ∧
    let a_H := hget (spring_acc_H st) 0 0 in
    let a_Cl := hget (spring_acc_Cl st) 0 0 in
    (mass_H * a_H.1 + mass_Cl * a_Cl.1 =? 0)%float = false) ∧
  (let r := (1%float, 1%float) in
   let a_H := (spring_acc dot_fused r r).1 in
   let a_Cl := (spring_acc dot_fused r r).2 in
   is_nan (mass_H * a_H.1 + mass_Cl * a_Cl.1)%float = true) ∧
  (let r := (1%float, 1%float) in
   let a_H := (spring_acc dot_plain r r).1 in
   let a_Cl := (spring_acc dot_plain r r).2 in
   is_nan (mass_H * a_H.1 + mass_Cl * a_Cl.1)%float = true).
Proof.
  split; [eexists; split; vm_compute; reflexivity |].
  split; [eexists; split; vm_compute; reflexivity |].
  split; vm_compute; reflexivity.
Qed.

(** [C4], amended.  In the arrays the loop returns, for every step and
    every molecule, with [unit] the difference of the positions of the
    chlorine and the hydrogen divided by its norm (the square root of
    its [dot] product with itself) and [force] the
    product of [k_spring] and the norm minus [bond_length], the spring
    acceleration of the hydrogen is [unit*force/mass_H] and that of the
    chlorine is [-unit*force/mass_Cl]; the two forces that are divided
    by the masses, [unit*force] and [-unit*force], are exact opposites
    of one another. *)
Theorem spring_accelerations dot T n st0 :
  state_shaped T n st0 → T ≤ 2 ∨ progress_period T ≠ 0 →
  ∃ st, md_loop dot T n st0 = Ok st ∧
    ∀ t i, t < T - 1 → i < n →
      let r_H := hget (position_H st) t i in
      let r_Cl := hget (position_Cl st) t i in
      let distance :=
        PrimFloat.sqrt (dot (vsub r_Cl r_H) (vsub r_Cl r_H)) in
      let unit := vdiv (vsub r_Cl r_H) distance in
      let force := (k_spring * (distance - bond_length))%float in
      hget (spring_acc_H st) t i = vdiv (vscale unit force) mass_H ∧
      hget (spring_acc_Cl st) t i
        = vdiv (vscale (vneg unit) force) mass_Cl ∧
      vscale (vneg unit) force = vneg (vscale unit force).
Proof.
  intros Hshape Hok.
  destruct (md_loop_spec dot T n st0 Hshape Hok)
    as (st & Hrun & Hsh & _ & _ & Hint).
  exists st. split; [done |]. intros t i Ht Hi.
  destruct (Hint t Ht) as (H1 & H2 & _).
  cbv zeta. unfold hget. rewrite H1, H2. unfold spring_frames. cbn [fst snd].
  rewrite !lookup_total_fmap_seq by done.
  split; [done |]. split; [done |].
  unfold vscale, vneg. cbn [fst snd]. by rewrite !float_opp_mul.
Qed.

(** [C4], witness: the spring of molecule 0 of [two_molecules] at step 0. *)
Lemma spring_accelerations_witness :
  ∃ st, md_loop dot_fused 21 2 two_molecules = Ok st ∧
    let r_H := hget (position_H st) 0 0 in
    let r_Cl := hget (position_Cl st) 0 0 in
    let distance :=
      PrimFloat.sqrt (dot_fused (vsub r_Cl r_H) (vsub r_Cl r_H)) in
    let unit := vdiv (vsub r_Cl r_H) distance in
    let force := (k_spring * (distance - bond_length))%float in
    hget (spring_acc_H st) 0 0 = vdiv (vscale unit force) mass_H ∧
    hget (spring_acc_Cl st) 0 0 = vdiv (vscale (vneg unit) force) mass_Cl ∧
    vscale (vneg unit) force = vneg (vscale unit force).
Proof.
  destruct (spring_accelerations dot_fused 21 2 two_molecules)
    as (st & Hrun & Hst).
  - apply allocated_shaped; reflexivity.
  - right. vm_compute. lia.
  - exists st. split; [exact Hrun |]. apply (Hst 0 0); lia.
Defined.

(** *** The Coulomb forces *)

(** The rows that the mask keeps are those of the other molecules. *)
Lemma mask_select_others (rows : frame) i s :
  mask_select ((λ j, negb (Nat.eqb j i)) <$> seq s (length rows)) rows
  = (λ j, rows !!! (j - s)) <$> filter (λ j, j ≠ i) (seq s (length rows)).
Proof.
  revert s. induction rows as [|r rows IH]; intros s; [done |].
  assert ((λ j, rows !!! (j - S s)) <$> filter (λ j, j ≠ i)
            (seq (S s) (length rows))
          = (λ j, (r :: rows) !!! (j - s)) <$> filter (λ j, j ≠ i)
            (seq (S s) (length rows))) as Hshift.
  { apply list_fmap_ext. intros k j Hj.
    apply list_elem_of_lookup_2, list_elem_of_filter in Hj as [_ Hj].
    apply elem_of_seq in Hj.
    by replace (j - s) with (S (j - S s)) by lia. }
  cbn [length seq fmap list_fmap mask_select]. rewrite filter_cons.
  destruct (Nat.eqb_spec s i) as [-> | Hne]; cbn [negb].
  - rewrite decide_False by (intros ?; done). by rewrite IH, Hshift.
  - rewrite decide_True by done. rewrite fmap_cons, Nat.sub_diag.
    by rewrite IH, Hshift.
Qed.

Lemma coulomb_force_terms q_a q_b r_a (others : list vec) :
  coulomb_force q_a q_b r_a others = coulomb_term q_a q_b r_a <$> others.
Proof.
  unfold coulomb_force. induction others as [|r others IH]; [done |].
  cbn [fmap list_fmap zip_with] in *. by rewrite IH.
Qed.

(** The vectorised computation of the loop body is the sum, over the
    other molecules, of the terms of the four pairs of atoms. *)
Lemma coulomb_acc_sums n i (pos_H pos_Cl : frame) :
  length pos_H = n → length pos_Cl = n →
  coulomb_acc n i pos_H pos_Cl
  = (coulomb_acc_of_H n i pos_H pos_Cl, coulomb_acc_of_Cl n i pos_H pos_Cl).
Proof.
  intros HH HCl. unfold coulomb_acc, coulomb_acc_of_H, coulomb_acc_of_Cl,
    coulomb_sum, other_molecules.
  rewrite !coulomb_force_terms.
  pose proof (mask_select_others pos_H i 0) as EH.
  pose proof (mask_select_others pos_Cl i 0) as ECl.
  rewrite HH in EH. rewrite HCl in ECl. rewrite EH, ECl.
  rewrite <- !list_fmap_compose.
  assert (∀ (f : vec → vec) (rows : frame) (l : list nat),
    (f ∘ (λ j, rows !!! (j - 0))) <$> l = (λ j, f (rows !!! j)) <$> l) as Hf.
  { intros f rows l. apply list_fmap_ext. intros k j _. simpl.
    by rewrite Nat.sub_0_r. }
  by rewrite !Hf.
Qed.

Lemma elem_of_other_molecules n i j :
  j ∈ other_molecules n i ↔ j < n ∧ j ≠ i.
Proof.
  unfold other_molecules. rewrite list_elem_of_filter, elem_of_seq.
  intuition lia.
Qed.

(** A sum over the other molecules does not read row [i] of the frame. *)
Lemma coulomb_sum_insert n i q_a q_b r_a (pos_b : frame) r :
  coulomb_sum n i q_a q_b r_a (<[i := r]> pos_b)
  = coulomb_sum n i q_a q_b r_a pos_b.
Proof.
  unfold coulomb_sum. f_equal. apply list_fmap_ext. intros k j Hj.
  apply list_elem_of_lookup_2, elem_of_other_molecules in Hj as [_ Hj].
  by rewrite list_lookup_total_insert_ne.
Qed.

(** [C3] In the arrays the loop returns, for every step and every
    molecule [i], the Coulomb acceleration of the hydrogen (of the
    chlorine) is the sum over the molecules [j] other than [i] of the
    terms [k_e*q_a*q_b/d^2] along the unit vector between the two
    atoms, for the hydrogens and for the chlorines of those molecules,
    divided by the mass of the atom; each of the two sums adds its terms
    to 0.0 in the order of the molecules.  The sums range over the molecules
    other than [i], and the acceleration of an atom does not depend on
    where the other atom of its own molecule is. *)
Theorem coulomb_accelerations dot T n st0 :
  state_shaped T n st0 → T ≤ 2 ∨ progress_period T ≠ 0 →
  ∃ st, md_loop dot T n st0 = Ok st ∧
    ∀ t i, t < T - 1 → i < n →
      let pos_H := position_H st !!! t in
      let pos_Cl := position_Cl st !!! t in
      hget (coulomb_acc_H st) t i
        = vdiv (vadd
            (foldl vadd (0%float, 0%float)
               ((λ j, coulomb_term charge_H charge_H
                        (pos_H !!! i) (pos_H !!! j))
                  <$> other_molecules n i))
            (foldl vadd (0%float, 0%float)
               ((λ j, coulomb_term charge_H charge_Cl
                        (pos_H !!! i) (pos_Cl !!! j))
                  <$> other_molecules n i))) mass_H ∧
      hget (coulomb_acc_Cl st) t i
        = vdiv (vadd
            (foldl vadd (0%float, 0%float)
               ((λ j, coulomb_term charge_Cl charge_H
                        (pos_Cl !!! i) (pos_H !!! j))
                  <$> other_molecules n i))
            (foldl vadd (0%float, 0%float)
               ((λ j, coulomb_term charge_Cl charge_Cl
                        (pos_Cl !!! i) (pos_Cl !!! j))
                  <$> other_molecules n i))) mass_Cl ∧
      (∀ j, j ∈ other_molecules n i ↔ j < n ∧ j ≠ i) ∧
      (∀ r, (coulomb_acc n i pos_H (<[i := r]> pos_Cl)).1
            = (coulomb_acc n i pos_H pos_Cl).1) ∧
      (∀ r, (coulomb_acc n i (<[i := r]> pos_H) pos_Cl).2
            = (coulomb_acc n i pos_H pos_Cl).2).
Proof.
  intros Hshape Hok.
  destruct (md_loop_spec dot T n st0 Hshape Hok)
    as (st & Hrun & Hsh & _ & _ & Hint).
  exists st. split; [done |]. intros t i Ht Hi.
  destruct (Hint t Ht) as (_ & _ & H3 & H4 & _).
  destruct Hsh as (HpH & HpCl & _).
  assert (length (position_H st !!! t) = n) as HlH
    by (apply (shaped_lookup T n); [done | lia]).
  assert (length (position_Cl st !!! t) = n) as HlCl
    by (apply (shaped_lookup T n); [done | lia]).
  cbv zeta. unfold hget. rewrite H3, H4. unfold coulomb_frames.
  cbn [fst snd]. rewrite !lookup_total_fmap_seq by done.
  rewrite !coulomb_acc_sums by (rewrite ?length_insert; done).
  cbn [fst snd].
  split; [done |]. split; [done |].
  split; [apply elem_of_other_molecules |]. split.
  - intros r. rewrite !coulomb_acc_sums by (rewrite ?length_insert; done).
    cbn [fst snd]. unfold coulomb_acc_of_H.
    by rewrite coulomb_sum_insert.
  - intros r. rewrite !coulomb_acc_sums by (rewrite ?length_insert; done).
    cbn [fst snd]. unfold coulomb_acc_of_Cl.
    by rewrite coulomb_sum_insert.
Qed.

(** [C3], witness: the hydrogen of molecule 0 of [two_molecules] at step
    0. *)
Lemma coulomb_accelerations_witness :
  ∃ st, md_loop dot_fused 21 2 two_molecules = Ok st ∧
    hget (coulomb_acc_H st) 0 0
    = vdiv (vadd
        (foldl vadd (0%float, 0%float)
           ((λ j, coulomb_term charge_H charge_H
                    ((position_H st !!! 0) !!! 0)
                    ((position_H st !!! 0) !!! j))
              <$> other_molecules 2 0))
        (foldl vadd (0%float, 0%float)
           ((λ j, coulomb_term charge_H charge_Cl
                    ((position_H st !!! 0) !!! 0)
                    ((position_Cl st !!! 0) !!! j))
              <$> other_molecules 2 0))) mass_H.
Proof.
  destruct (coulomb_accelerations dot_fused 21 2 two_molecules)
    as (st & Hrun & Hst).
  - apply allocated_shaped; reflexivity.
  - right. vm_compute. lia.
  - exists st. split; [exact Hrun |].
    destruct (Hst 0 0) as (HH & _); [lia | lia |]. exact HH.
Defined.

(** *** What the loop prints *)

(** With fewer than 20 time steps [int(timesteps/20)] is 0, and the
    modulo of the [if] that prints raises at step 1. *)
Lemma md_loop_short_raises :
  progress_period 10 = 0 ∧
  md_loop dot_fused 10 2
    (allocated 10 2 [(0%float, 0%float); (1%float, 0%float)]
                  [(0%float, 1%float); (1%float, 1%float)])
  = Raise ZeroDivisionError.
Proof. split; vm_compute; reflexivity. Qed.

(** [C8] The loop prints a progress line at exactly the steps [t] of
    its range with [t != 0] and [t mod int(timesteps/20) = 0], in
    order, and the summary after them; for [timesteps = 5000] these are
    the 19 steps 250, 500, ..., 4750. *)
Theorem progress_printed dot T n st0 :
  state_shaped T n st0 → progress_period T ≠ 0 →
  ∃ st, md_loop dot T n st0 = Ok st ∧
    output st
      = output st0
        ++ ((λ t, Progress t T)
              <$> filter (λ t, t ≠ 0 ∧ t mod progress_period T = 0)
                    (seq 0 (T - 1)))
        ++ [Summary n T] ∧
    (T = 5000 →
      progress_period T = 250 ∧
      filter (λ t, t ≠ 0 ∧ t mod progress_period T = 0) (seq 0 (T - 1))
        = [250; 500; 750; 1000; 1250; 1500; 1750; 2000; 2250; 2500;
           2750; 3000; 3250; 3500; 3750; 4000; 4250; 4500; 4750] ∧
      length (filter (λ t, t ≠ 0 ∧ t mod progress_period T = 0)
                (seq 0 (T - 1))) = 19).
Proof.
  intros Hshape Hok.
  destruct (md_loop_spec dot T n st0 Hshape (or_intror Hok))
    as (st & Hrun & _ & _ & Hout & _).
  exists st. split; [done |]. split; [done |].
  intros ->. split; [by vm_compute |].
  assert (progress_period 5000 = 250) as -> by (by vm_compute).
  split; by vm_compute.
Qed.

(** [notebook_start] is what the cells before the loop compute. *)
Lemma notebook_start_initial :
  initial_state timesteps num_molecules grid_dims side_lengths normal_along_x
  = Ok notebook_start.
Proof. vm_compute. reflexivity. Qed.

Lemma notebook_start_shaped :
  state_shaped timesteps num_molecules notebook_start.
Proof. apply allocated_shaped; by vm_compute. Qed.

(** [C8], witness: the notebook's 5000 steps and 16 molecules. *)
Lemma progress_printed_witness :
  ∃ st, md_loop dot_fused timesteps num_molecules notebook_start = Ok st ∧
    output st
      = ((λ t, Progress t timesteps)
           <$> [250; 500; 750; 1000; 1250; 1500; 1750; 2000; 2250; 2500;
                2750; 3000; 3250; 3500; 3750; 4000; 4250; 4500; 4750])
        ++ [Summary num_molecules timesteps].
Proof.
  destruct (progress_printed dot_fused timesteps num_molecules notebook_start)
    as (st & Hrun & Hout & Hnotebook).
  - exact notebook_start_shaped.
  - vm_compute. lia.
  - exists st. split; [exact Hrun |].
    destruct (Hnotebook eq_refl) as (_ & Hsteps & _).
    rewrite Hout, Hsteps. reflexivity.
Defined.
End moldyn_claims.

(** ** The number of iterations of the loops *)

Section iterations.
Import Lightning.

(** The [while] loop of the lightning notebook runs as many iterations
    as it takes for [ymin] to become 0, and no more. *)
Lemma growth_loop_iterations power Lx Ly nrep eta fuel u st st' :
  growth_loop power Lx Ly nrep eta fuel u st = Ok (Some st') →
  ∃ k, k ≤ fuel ∧
    growth_steps power Lx Ly nrep eta k u st = Ok st' ∧
    st_ymin st' = 0 ∧
    ∀ j st_j, j < k →
      growth_steps power Lx Ly nrep eta j u st = Ok st_j →
      0 < st_ymin st_j.
Proof.
  revert st. induction fuel as [|fuel IH]; intros st Hloop.
  - simpl in Hloop. destruct (Nat.ltb_spec 0 (st_ymin st)); [done |].
    injection Hloop as <-. exists 0.
    split; [done |]. split; [done |]. split; [lia |]. intros; lia.
  - destruct (Nat.ltb_spec 0 (st_ymin st)) as [Hpos | Hzero].
    + rewrite growth_loop_unfold in Hloop by done.
      destruct (growth_step power Lx Ly nrep eta (u (st_ns st)) st)
        as [st1 |] eqn:Hstep; [| done].
      rewrite bind_Ok in Hloop.
      destruct (IH st1 Hloop) as (k & Hk & Hsteps & Hymin & Hfirst).
      exists (S k). split; [lia |]. split.
      { simpl. by rewrite Hstep, bind_Ok. }
      split; [done |]. intros [|j] st_j Hj Hst_j.
      * injection Hst_j as <-. done.
      * simpl in Hst_j. rewrite Hstep, bind_Ok in Hst_j.
        apply (Hfirst j); [lia | done].
    + rewrite growth_loop_done in Hloop by lia. injection Hloop as <-.
      exists 0. split; [lia |]. split; [done |]. split; [lia |].
      intros; lia.
Qed.

(** [C6], witness: the first iteration on the grid of 2 by 3 points. *)
Lemma growth_step_spec_witness :
  ∃ st', growth_step power_one 2 3 nrep eta (uniform_a 0)
           (initial_state 2 3) = Ok st' ∧
         st_ns st' = 1.
Proof.
  destruct (growth_step_spec power_one 2 3 nrep eta uniform_a
              (initial_state 2 3))
    as (s & ix & iy & st' & _ & Hstep & _ & _ & _ & _ & _ & _ & _ & _ & _
        & _ & Hns & _).
  - repeat split; reflexivity.
  - lia.
  - lia.
  - unfold degenerate. simpl. lia.
  - reflexivity.
  - reflexivity.
  - reflexivity.
  - simpl. lia.
  - exists st'. split; [exact Hstep | exact Hns].
Defined.

(** [C7], as stated, fails for the lightning loop: on one grid, with
    one [b] and one number of sweeps, the loop makes 2 iterations for
    the samples [uniform_a] and 3 for the samples [uniform_b]. *)
Lemma growth_loop_iterations_differ :
  ∃ st_a st_b,
    growth_loop power_one 2 3 nrep eta 10 uniform_a (initial_state 2 3)
      = Ok (Some st_a) ∧
    growth_loop power_one 2 3 nrep eta 10 uniform_b (initial_state 2 3)
      = Ok (Some st_b) ∧
    st_ns st_a = 2 ∧ st_ns st_b = 3.
Proof.
  eexists _, _. split; [vm_compute; reflexivity |].
  split; [vm_compute; reflexivity |]. split; reflexivity.
Qed.

(** [C7], amended.  The molecular-dynamics loop makes exactly
    [timesteps - 1] iterations.  The path-growth loop of the lightning
    notebook is a [while] loop: it ends after the first iteration that
    leaves [ymin = 0], so that the number of its iterations is the
    number of iterations its samples take to reach the top row. *)
Theorem loop_iterations :
  (∀ dot T n st0,
    MolDyn.state_shaped T n st0 → T ≤ 2 ∨ MolDyn.progress_period T ≠ 0 →
    ∃ st, MolDyn.md_loop dot T n st0 = Ok st ∧
          MolDyn.iterations st = MolDyn.iterations st0 + (T - 1)) ∧
  (∀ power Lx Ly nrep eta fuel u st st',
    growth_loop power Lx Ly nrep eta fuel u st = Ok (Some st') →
    ∃ k, k ≤ fuel ∧
      growth_steps power Lx Ly nrep eta k u st = Ok st' ∧
      st_ymin st' = 0 ∧
      ∀ j st_j, j < k →
        growth_steps power Lx Ly nrep eta j u st = Ok st_j →
        0 < st_ymin st_j).
Proof.
  split.
  - intros dot T n st0 Hshape Hok.
    destruct (md_loop_spec dot T n st0 Hshape Hok)
      as (st & Hrun & _ & Hit & _).
    by exists st.
  - apply growth_loop_iterations.
Qed.

(** [C7], witness: the notebook's loop makes 4999 iterations. *)
Lemma loop_iterations_witness :
  ∃ st, MolDyn.md_loop MolDyn.dot_fused MolDyn.timesteps
          MolDyn.num_molecules MolDyn.notebook_start = Ok st ∧
        MolDyn.iterations st = 4999.
Proof.
  destruct (proj1 loop_iterations MolDyn.dot_fused MolDyn.timesteps
              MolDyn.num_molecules MolDyn.notebook_start)
    as (st & Hrun & Hit).
  - exact notebook_start_shaped.
  - right. vm_compute. lia.
  - exists st. split; [exact Hrun | exact Hit].
Defined.
End iterations.


(** * Further properties *)

(** ** The relaxation solver *)

Section solver_more.
Import Lightning.
Implicit Types (b z znew : ndarray).

(** [X1] A boundary array without nan is returned as it is, whatever the
    number of sweeps. *)
Theorem solvepoisson_fully_specified b nrep :
  wf b →
  (∀ ix iy, ix < shape0 b → iy < shape1 b → is_nan (aget b ix iy) = false) →
  solvepoisson b nrep = Ok b.
Proof.
  intros Hwf Hspec.
  assert (has_neighbours b) as Hsafe.
  { intros ix iy Hx Hy Hnan. rewrite Hspec in Hnan by done. done. }
  rewrite solvepoisson_jacobi by done. f_equal.
  destruct (jacobi_shape b nrep) as [Hs0 Hs1].
  apply ndarray_eq; [by apply jacobi_wf | done | done |].
  rewrite Hs0, Hs1. intros ix iy Hx Hy.
  apply jacobi_keeps_boundary; [done | done | done |]. by apply Hspec.
Qed.

Lemma solvepoisson_fully_specified_witness :
  solvepoisson b_specified 7 = Ok b_specified.
Proof.
  apply (solvepoisson_fully_specified b_specified 7); [reflexivity |].
  intros ix iy Hx Hy. simpl in Hx, Hy.
  destruct ix as [|[|ix]], iy as [|[|iy]]; try lia; reflexivity.
Defined.

(** [X2] A sweep writes every entry of [znew] from [z] alone: what the buffer
    held before, the field of two sweeps ago after the swap, does not
    reach the result. *)
Theorem sweep_overwrites_buffer b z znew1 znew2 :
  has_neighbours b →
  wf znew1 → same_shape znew1 b → wf znew2 → same_shape znew2 b →
  ∃ r, sweep b z (shape0 b) (shape1 b) znew1 = Ok r ∧
       sweep b z (shape0 b) (shape1 b) znew2 = Ok r ∧
       same_shape r b ∧
       ∀ ix iy, ix < shape0 b → iy < shape1 b →
         aget r ix iy = jacobi_point b z ix iy.
Proof.
  intros Hsafe Hwf1 Hsh1 Hwf2 Hsh2. exists (jacobi_sweep b z).
  split; [by apply sweep_jacobi |]. split; [by apply sweep_jacobi |].
  split; [done |]. intros ix iy Hx Hy. by apply aget_jacobi_sweep.
Qed.

Lemma sweep_overwrites_buffer_witness :
  ∃ r, sweep b_small (nan_to_zero b_small) 2 3 (full 2 3 7%float) = Ok r ∧
       sweep b_small (nan_to_zero b_small) 2 3 (full 2 3 0%float) = Ok r.
Proof.
  destruct (sweep_overwrites_buffer b_small (nan_to_zero b_small)
              (full 2 3 7%float) (full 2 3 0%float))
    as (r & H1 & H2 & _).
  - intros ix iy _ _ _. simpl. lia.
  - reflexivity.
  - split; reflexivity.
  - reflexivity.
  - split; reflexivity.
  - exists r. split; [exact H1 | exact H2].
Defined.
End solver_more.

(** ** The setup and the growth of the lightning path *)

Section growth_more.
Import Lightning.
Implicit Types (a zn s uniform : ndarray) (st : state).

Lemma full_wf Lx Ly v : wf (full Lx Ly v).
Proof. unfold wf, full. simpl. by rewrite length_replicate. Qed.

Lemma aget_full Lx Ly v x y : x < Lx → y < Ly → aget (full Lx Ly v) x y = v.
Proof.
  intros Hx Hy. unfold aget, full. simpl. apply list_lookup_total_correct.
  apply lookup_replicate_2. by apply flat_index_lt.
Qed.

Lemma set_column_wf a iy v : wf a → wf (set_column a iy v).
Proof.
  intros Hwf. unfold set_column.
  induction (seq 0 (shape0 a)) as [|ix l IH] using rev_ind; [done |].
  rewrite foldl_snoc. by apply aset_wf.
Qed.

Lemma set_column_shape a iy v : same_shape (set_column a iy v) a.
Proof.
  unfold set_column.
  induction (seq 0 (shape0 a)) as [|ix l IH] using rev_ind; [done |].
  by rewrite foldl_snoc.
Qed.

(** [a[:, iy] = v] sets column [iy] and nothing else. *)
Lemma aget_set_column a iy v x y :
  wf a → iy < shape1 a → x < shape0 a → y < shape1 a →
  aget (set_column a iy v) x y = if decide (y = iy) then v else aget a x y.
Proof.
  intros Hwf Hiy Hx Hy.
  assert (set_column a iy v
          = foldl (λ a p, aset a p.1 p.2 v) a
              ((λ ix, (ix, iy)) <$> seq 0 (shape0 a))) as ->
    by (unfold set_column; by rewrite foldl_fmap).
  rewrite aget_foldl_aset; [| done | done |].
  - destruct (decide (y = iy)) as [-> | Hne].
    + rewrite bool_decide_eq_true_2; [done |].
      apply list_elem_of_fmap. exists x. split; [done |].
      apply elem_of_seq. lia.
    + rewrite bool_decide_eq_false_2; [done |].
      intros (ix & [= _ ?] & _)%list_elem_of_fmap. done.
  - intros p (ix & -> & Hin)%list_elem_of_fmap. apply elem_of_seq in Hin.
    simpl. lia.
Qed.

(** [X3] The cells before the loop, on a grid with at least two columns: the
    arrays have the shape of the grid; [b] is 0 on the ground (the last
    column), 1 on the cloud (the first) and nan between them; the
    candidates in [zeroneighbor] are the points next to the ground; [c] is
    0; and the loop starts with [ymin = Ly - 1] and [ns = 0]. *)
Theorem lightning_setup Lx Ly :
  2 ≤ Ly →
  state_wf Lx Ly (initial_state Lx Ly) ∧
  ¬ degenerate (st_b (initial_state Lx Ly)) ∧
  st_ymin (initial_state Lx Ly) = Ly - 1 ∧
  st_ns (initial_state Lx Ly) = 0 ∧
  ∀ x y, x < Lx → y < Ly →
    aget (st_b (initial_state Lx Ly)) x y
      = (if decide (y = Ly - 1) then 0%float
         else if decide (y = 0) then 1%float else nan) ∧
    aget (st_zeroneighbor (initial_state Lx Ly)) x y
      = (if decide (y = Ly - 2) then nan else 0%float) ∧
    aget (st_c (initial_state Lx Ly)) x y = 0%float.
Proof.
  intros HLy. unfold initial_state. cbn [st_b st_c st_zeroneighbor st_ymin st_ns].
  set (b1 := set_column (full Lx Ly nan) 0 1%float).
  assert (wf b1) as Hb1 by apply set_column_wf, full_wf.
  assert (shape0 b1 = Lx ∧ shape1 b1 = Ly) as [Hb10 Hb11]
    by apply (set_column_shape (full Lx Ly nan)).
  set (b2 := set_column b1 (Ly - 1) 0%float).
  assert (wf b2) as Hb2 by by apply set_column_wf.
  assert (shape0 b2 = Lx ∧ shape1 b2 = Ly) as [Hb20 Hb21].
  { destruct (set_column_shape b1 (Ly - 1) 0%float) as [E0 E1].
    fold b2 in E0, E1. split; congruence. }
  set (zn := set_column (full Lx Ly 0%float) (Ly - 2) nan).
  assert (wf zn) as Hzn by apply set_column_wf, full_wf.
  assert (shape0 zn = Lx ∧ shape1 zn = Ly) as [Hzn0 Hzn1]
    by apply (set_column_shape (full Lx Ly 0%float)).
  split.
  { unfold state_wf. cbn [st_b st_c st_zeroneighbor].
    repeat split; try done. apply full_wf. }
  split.
  { intros (_ & H1 & _). rewrite Hb21 in H1. lia. }
  split; [done |]. split; [done |].
  intros x y Hx Hy. split; [| split].
  - unfold b2. rewrite aget_set_column by (done || lia).
    destruct (decide (y = Ly - 1)); [done |].
    unfold b1. rewrite aget_set_column by (apply full_wf || simpl; lia).
    destruct (decide (y = 0)); [done |]. by apply aget_full.
  - unfold zn. rewrite aget_set_column by (apply full_wf || simpl; lia).
    destruct (decide (y = Ly - 2)); [done |]. by apply aget_full.
  - by apply aget_full.
Qed.

Lemma lightning_setup_witness :
  state_wf 50 50 (initial_state 50 50) ∧
  ¬ degenerate (st_b (initial_state 50 50)) ∧
  st_ymin (initial_state 50 50) = 49.
Proof.
  destruct (lightning_setup 50 50) as (Hwf & Hnd & Hymin & _); [lia |].
  split; [exact Hwf |]. split; [exact Hnd | exact Hymin].
Defined.

Section steps.
Context (power : float → float → float) (Lx Ly nrep : nat) (eta : float).

(** An iteration on a grid that is not empty returns, and writes at one
    point of the grid. *)
Lemma growth_step_ok uniform st :
  state_wf Lx Ly st → 0 < Lx → 0 < Ly → ¬ degenerate (st_b st) →
  wf uniform → shape0 uniform = Lx → shape1 uniform = Ly →
  ∃ ix iy st', ix < Lx ∧ iy < Ly ∧
    growth_step power Lx Ly nrep eta uniform st = Ok st' ∧
    st' = State (aset (st_b st) ix iy 0%float)
            (aset (st_c st) ix iy (float_of_nat (st_ns st + 1)))
            (mark_neighbours (st_zeroneighbor st) Lx Ly ix iy)
            (if Nat.ltb iy (st_ymin st) then iy else st_ymin st)
            (st_ns st + 1) ∧
    state_wf Lx Ly st' ∧ ¬ degenerate (st_b st').
Proof.
  intros (Hb & Hb0 & Hb1 & Hc & Hc0 & Hc1 & Hz & Hz0 & Hz1)
    HLx HLy Hnd Hu Hu0 Hu1.
  set (s := jacobi (st_b st) nrep).
  assert (solvepoisson (st_b st) nrep = Ok s) as Hsolve
    by (by apply solvepoisson_jacobi, not_degenerate_has_neighbours).
  assert (wf s) as Hs by (by apply jacobi_wf).
  destruct (jacobi_shape (st_b st) nrep) as [Hs0 Hs1]. fold s in Hs0, Hs1.
  rewrite Hb0 in Hs0. rewrite Hb1 in Hs1.
  set (sprob := sprob_of power eta s uniform (st_zeroneighbor st)).
  assert (wf sprob) as Hp
    by (apply sprob_of_wf; try done; split; congruence).
  assert (shape0 sprob = Lx ∧ shape1 sprob = Ly) as [Hp0 Hp1] by done.
  destruct (argmax_spec (data sprob)) as (k & m & Hk & Hlk & _).
  { intros Hnil. unfold wf in Hp. rewrite Hnil, Hp0, Hp1 in Hp.
    simpl in Hp. nia. }
  apply lookup_lt_Some in Hlk. rewrite Hp, Hp0, Hp1 in Hlk.
  destruct (unravel_in_grid Lx Ly k Hlk) as (Hix & Hiy & _).
  set (ix := k / Ly) in *. set (iy := k mod Ly) in *.
  exists ix, iy,
    (State (aset (st_b st) ix iy 0%float)
       (aset (st_c st) ix iy (float_of_nat (st_ns st + 1)))
       (mark_neighbours (st_zeroneighbor st) Lx Ly ix iy)
       (if Nat.ltb iy (st_ymin st) then iy else st_ymin st)
       (st_ns st + 1)).
  split; [done |]. split; [done |].
  split; [| split; [reflexivity |]].
  - unfold growth_step. rewrite Hsolve, bind_Ok. cbv beta zeta.
    fold sprob. rewrite Hk, bind_Ok. unfold unravel_index. by rewrite Hp1.
  - split.
    + unfold state_wf. cbn [st_b st_c st_zeroneighbor].
      destruct (mark_neighbours_shape (st_zeroneighbor st) Lx Ly ix iy)
        as [Hm0 Hm1].
      repeat split; try done; try (by apply aset_wf); try congruence.
      by apply mark_neighbours_wf.
    + intros (H0 & H1 & Hnan). cbn [st_b] in H0, H1, Hnan.
      simpl in H0, H1.
      assert (ix = 0 ∧ iy = 0) as [Hix0 Hiy0] by lia.
      rewrite Hix0, Hiy0, aget_aset_eq in Hnan by (done || lia). done.
Qed.

(** [X4] Any number of iterations of the body of the loop on a grid that is not
    empty, with samples of the shape of the grid: no iteration raises;
    the arrays keep their shape; [ns] counts the iterations; [ymin] does
    not grow; a point of the grid either keeps its entries of [b] and
    [c], or has 0 in [b] and in [c] the number of one of these
    iterations; and a candidate in [zeroneighbor] stays one. *)
Theorem growth_steps_invariants k (u : nat → ndarray) st :
  state_wf Lx Ly st → 0 < Lx → 0 < Ly → ¬ degenerate (st_b st) →
  (∀ j, wf (u j) ∧ shape0 (u j) = Lx ∧ shape1 (u j) = Ly) →
  ∃ st',
    growth_steps power Lx Ly nrep eta k u st = Ok st' ∧
    state_wf Lx Ly st' ∧ ¬ degenerate (st_b st') ∧
    st_ns st' = st_ns st + k ∧
    st_ymin st' ≤ st_ymin st ∧
    ∀ x y, x < Lx → y < Ly →
      ((aget (st_b st') x y = aget (st_b st) x y ∧
        aget (st_c st') x y = aget (st_c st) x y) ∨
       (aget (st_b st') x y = 0%float ∧
        ∃ j, st_ns st < j ≤ st_ns st + k ∧
          aget (st_c st') x y = float_of_nat j)) ∧
      (is_nan (aget (st_zeroneighbor st) x y) = true →
       is_nan (aget (st_zeroneighbor st') x y) = true).
Proof.
  intros Hwf HLx HLy Hnd Hu. revert st Hwf Hnd.
  induction k as [|k IH]; intros st Hwf Hnd.
  - exists st. simpl. rewrite Nat.add_0_r.
    split; [done |]. split; [done |]. split; [done |]. split; [done |].
    split; [done |]. intros x y _ _. split; [by left | done].
  - destruct (Hu (st_ns st)) as (Hu' & Hu0 & Hu1).
    destruct (growth_step_ok (u (st_ns st)) st Hwf HLx HLy Hnd Hu' Hu0 Hu1)
      as (ix & iy & st1 & Hix & Hiy & Hstep & Hst1 & Hwf1 & Hnd1).
    destruct Hwf as (Hb & Hb0 & Hb1 & Hc & Hc0 & Hc1 & Hz & Hz0 & Hz1).
    destruct (IH st1 Hwf1 Hnd1)
      as (st' & Hsteps & Hwf' & Hnd' & Hns & Hymin & Hentries).
    exists st'. split.
    { simpl. by rewrite Hstep, bind_Ok. }
    split; [done |]. split; [done |].
    rewrite Hst1 in Hns, Hymin, Hentries.
    cbn [st_b st_c st_ns st_ymin st_zeroneighbor] in Hns, Hymin, Hentries.
    split; [lia |]. split.
    { etrans; [exact Hymin |].
      destruct (Nat.ltb_spec iy (st_ymin st)); lia. }
    intros x y Hx Hy. destruct (Hentries x y Hx Hy) as [Hbxy Hzxy].
    split.
    + destruct Hbxy as [[Hbxy Hcxy] | (Hbxy & j & Hj & Hcxy)].
      * rewrite Hbxy, Hcxy, !aget_aset by (done || lia).
        destruct (decide ((ix, iy) = (x, y))); [right | by left].
        split; [done |]. exists (st_ns st + 1). split; [lia | done].
      * right. split; [done |]. exists j. split; [lia | done].
    + intros Hnan. apply Hzxy. rewrite <- Hz0, <- Hz1.
      rewrite aget_mark_neighbours by (done || lia).
      by case_bool_decide.
Qed.

(** [X5] The [while] loop raises nothing on such a grid: with the iterations
    that [fuel] allows it either has not ended, or it has ended with
    [ymin = 0], after no more than [fuel] iterations, all counted in
    [ns]. *)
Theorem growth_loop_never_raises fuel (u : nat → ndarray) st :
  state_wf Lx Ly st → 0 < Lx → 0 < Ly → ¬ degenerate (st_b st) →
  (∀ j, wf (u j) ∧ shape0 (u j) = Lx ∧ shape1 (u j) = Ly) →
  growth_loop power Lx Ly nrep eta fuel u st = Ok None ∨
  ∃ st', growth_loop power Lx Ly nrep eta fuel u st = Ok (Some st') ∧
    st_ymin st' = 0 ∧ state_wf Lx Ly st' ∧
    st_ns st ≤ st_ns st' ≤ st_ns st + fuel ∧
    growth_steps power Lx Ly nrep eta (st_ns st' - st_ns st) u st = Ok st'.
Proof.
  intros Hwf HLx HLy Hnd Hu. revert st Hwf Hnd.
  induction fuel as [|fuel IH]; intros st Hwf Hnd.
  - destruct (decide (st_ymin st = 0)) as [Hz | Hnz].
    + right. exists st. rewrite growth_loop_done by done.
      rewrite Nat.sub_diag. split; [done |]. split; [done |].
      split; [done |]. split; [lia | done].
    + left. simpl. by destruct (Nat.ltb_spec 0 (st_ymin st)); [| lia].
  - destruct (decide (st_ymin st = 0)) as [Hz | Hnz].
    + right. exists st. rewrite growth_loop_done by done.
      rewrite Nat.sub_diag. split; [done |]. split; [done |].
      split; [done |]. split; [lia | done].
    + rewrite growth_loop_unfold by lia.
      destruct (Hu (st_ns st)) as (Hu' & Hu0 & Hu1).
      destruct (growth_step_ok (u (st_ns st)) st Hwf HLx HLy Hnd Hu' Hu0 Hu1)
        as (ix & iy & st1 & Hix & Hiy & Hstep & Hst1 & Hwf1 & Hnd1).
      rewrite Hstep, bind_Ok.
      assert (st_ns st1 = st_ns st + 1) as Hns1 by (by rewrite Hst1).
      destruct (IH st1 Hwf1 Hnd1)
        as [Hnone | (st' & Hloop & Hymin & Hwf' & Hns & Hsteps)];
        [by left | right].
      exists st'. split; [done |]. split; [done |]. split; [done |].
      split; [lia |].
      replace (st_ns st' - st_ns st) with (S (st_ns st' - st_ns st1)) by lia.
      simpl. by rewrite Hstep, bind_Ok.
Qed.
End steps.

Lemma growth_steps_invariants_witness :
  ∃ st', growth_steps power_one 2 3 nrep eta 2 uniform_a (initial_state 2 3)
         = Ok st' ∧
    st_ns st' = 2.
Proof.
  destruct (growth_steps_invariants power_one 2 3 nrep eta 2 uniform_a
              (initial_state 2 3))
    as (st' & Hsteps & _ & _ & Hns & _).
  - vm_compute. repeat split; reflexivity.
  - lia.
  - lia.
  - intros (_ & H & _). vm_compute in H. lia.
  - intros j. vm_compute. repeat split; reflexivity.
  - exists st'. split; [exact Hsteps | exact Hns].
Defined.

Lemma growth_loop_never_raises_witness :
  ∃ st', growth_loop power_one 2 3 nrep eta 10 uniform_b (initial_state 2 3)
         = Ok (Some st') ∧
    st_ymin st' = 0.
Proof.
  destruct (growth_loop_never_raises power_one 2 3 nrep eta 10 uniform_b
              (initial_state 2 3))
    as [Hnone | (st' & Hloop & Hymin & _)].
  - vm_compute. repeat split; reflexivity.
  - lia.
  - lia.
  - intros (_ & H & _). vm_compute in H. lia.
  - intros j. vm_compute. repeat split; reflexivity.
  - vm_compute in Hnone. discriminate Hnone.
  - exists st'. split; [exact Hloop | exact Hymin].
Defined.
End growth_more.

(** ** [make_liquid] on grids that do not fit, and on samples with a zero row *)

Section make_liquid_more.
Import MolDyn.

Lemma broadcast_column_single n v :
  broadcast_column n [v] = Ok (replicate n v).
Proof.
  unfold broadcast_column. destruct (decide (length [v] = n)) as [<- | _]; done.
Qed.

Lemma broadcast_column_raises n values :
  length values ≠ n → length values ≠ 1 →
  broadcast_column n values = Raise ValueError.
Proof.
  intros Hn H1. unfold broadcast_column. rewrite decide_False by done.
  by destruct values as [|v [|w values]].
Qed.

(** The rows that [make_liquid] returns, from the columns that the two
    assignments to [molecule] have stored. *)
Lemma make_liquid_rows n L grid side normal mx my :
  broadcast_column n
    (ravel_mesh_x (linspace (- side.1 / 2)%float (side.1 / 2)%float grid.1)
       (linspace (- side.2 / 2)%float (side.2 / 2)%float grid.2)) = Ok mx →
  broadcast_column n
    (ravel_mesh_y (linspace (- side.1 / 2)%float (side.1 / 2)%float grid.1)
       (linspace (- side.2 / 2)%float (side.2 / 2)%float grid.2)) = Ok my →
  length mx = n → length my = n → length normal = n →
  ∃ hydrogen chlorine,
    make_liquid n L grid side normal = Ok (hydrogen, chlorine) ∧
    length hydrogen = n ∧ length chlorine = n ∧
    ∀ k, k < n →
      hydrogen !!! k
        = vsub (mx !!! k, my !!! k) (vdiv (bond_vector L normal k) 2%float) ∧
      chlorine !!! k
        = vadd (mx !!! k, my !!! k) (vdiv (bond_vector L normal k) 2%float).
Proof.
  intros Hmx Hmy Hlx Hly Hn. unfold make_liquid.
  rewrite Hmx, bind_Ok, Hmy, bind_Ok.
  eexists _, _. split; [reflexivity |].
  split; [| split].
  - rewrite length_zip_with, length_zip, length_zip_with, length_fmap. lia.
  - rewrite length_zip_with, length_zip, length_zip_with, length_fmap. lia.
  - intros k Hk.
    assert (zip mx my !! k = Some (mx !!! k, my !!! k)) as Hc.
    { rewrite lookup_zip_with.
      rewrite (list_lookup_lookup_total_lt mx) by lia.
      by rewrite (list_lookup_lookup_total_lt my) by lia. }
    assert (zip_with (λ p r, vscale (vdiv p r) L) normal (norm <$> normal) !! k
            = Some (bond_vector L normal k)) as Hp.
    { rewrite lookup_zip_with, list_lookup_fmap.
      by rewrite (list_lookup_lookup_total_lt normal) by lia. }
    split; apply list_lookup_total_correct;
      by rewrite lookup_zip_with, Hc, Hp.
Qed.

Lemma make_liquid_fits n L grid side normal :
  length normal = n → grid.1 * grid.2 = n →
  ∃ hydrogen chlorine,
    make_liquid n L grid side normal = Ok (hydrogen, chlorine) ∧
    length hydrogen = n ∧ length chlorine = n.
Proof.
  intros Hn Hgrid.
  assert (∀ xx yy : list float,
    length xx = grid.1 → length yy = grid.2 →
    length (ravel_mesh_x xx yy) = n ∧ length (ravel_mesh_y xx yy) = n)
    as Hmesh.
  { intros xx yy Hxx Hyy.
    rewrite length_ravel_mesh_x, length_ravel_mesh_y. lia. }
  destruct (Hmesh (linspace (- side.1 / 2)%float (side.1 / 2)%float grid.1)
              (linspace (- side.2 / 2)%float (side.2 / 2)%float grid.2))
    as [Hx Hy]; [apply length_linspace.. |].
  destruct (make_liquid_rows n L grid side normal _ _
              (broadcast_column_same n _ Hx) (broadcast_column_same n _ Hy))
    as (h & c & Hrun & Hh & Hc & _); [done.. |].
  by exists h, c.
Qed.

(** [X6] [make_liquid] raises, and then a [ValueError], exactly when the grid
    has neither [num_molecules] points nor a single point: the ravelled
    mesh does not broadcast to the column of [molecule]. *)
Theorem make_liquid_grid_mismatch n L grid side normal :
  length normal = n →
  (grid.1 * grid.2 ≠ n ∧ grid.1 * grid.2 ≠ 1 →
    make_liquid n L grid side normal = Raise ValueError) ∧
  (grid.1 * grid.2 = n ∨ grid.1 * grid.2 = 1 →
    ∃ hydrogen chlorine,
      make_liquid n L grid side normal = Ok (hydrogen, chlorine) ∧
      length hydrogen = n ∧ length chlorine = n).
Proof.
  intros Hn. destruct grid as [nx ny]. cbn [fst snd].
  set (xx := linspace (- side.1 / 2)%float (side.1 / 2)%float nx).
  set (yy := linspace (- side.2 / 2)%float (side.2 / 2)%float ny).
  assert (length (ravel_mesh_x xx yy) = nx * ny) as Hlx
    by (rewrite length_ravel_mesh_x; unfold xx, yy;
        rewrite !length_linspace; lia).
  assert (length (ravel_mesh_y xx yy) = nx * ny) as Hly
    by (rewrite length_ravel_mesh_y; unfold xx, yy;
        rewrite !length_linspace; lia).
  split.
  - intros [Hne H1]. unfold make_liquid. cbn [fst snd]. fold xx yy.
    by rewrite (broadcast_column_raises n (ravel_mesh_x xx yy)) by lia.
  - intros Hfit.
    assert (∃ mx my,
      broadcast_column n (ravel_mesh_x xx yy) = Ok mx ∧
      broadcast_column n (ravel_mesh_y xx yy) = Ok my ∧
      length mx = n ∧ length my = n) as (mx & my & Hmx & Hmy & Hx & Hy).
    { destruct (decide (nx * ny = n)) as [Heq | Hne].
      - exists (ravel_mesh_x xx yy), (ravel_mesh_y xx yy).
        rewrite !broadcast_column_same by lia. repeat split; lia.
      - destruct Hfit as [? | H1]; [done |].
        destruct (ravel_mesh_x xx yy) as [|x [|]]; try (simpl in Hlx; lia).
        destruct (ravel_mesh_y xx yy) as [|y [|]]; try (simpl in Hly; lia).
        exists (replicate n x), (replicate n y).
        rewrite !broadcast_column_single, !length_replicate. done. }
    destruct (make_liquid_rows n L (nx, ny) side normal mx my)
      as (h & c & Hrun & Hh & Hc & _); try done.
    by exists h, c.
Qed.

Lemma make_liquid_grid_mismatch_witness :
  make_liquid 3 bond_length (2, 2) side_lengths
    [(1%float, 0%float); (0%float, 1%float); (1%float, 1%float)]
  = Raise ValueError.
Proof.
  destruct (make_liquid_grid_mismatch 3 bond_length (2, 2) side_lengths
              [(1%float, 0%float); (0%float, 1%float); (1%float, 1%float)])
    as [Hraise _]; [reflexivity |].
  apply Hraise. simpl. lia.
Defined.

(** [X7] On a grid of a single point the point is broadcast: every molecule
    has its centre there, at the start of the two [linspace]s. *)
Theorem make_liquid_single_point n L side normal :
  length normal = n →
  ∃ hydrogen chlorine,
    make_liquid n L (1, 1) side normal = Ok (hydrogen, chlorine) ∧
    centre (1, 1) side 0
      = ((0 * (side.1 / 2 - - side.1 / 2) + - side.1 / 2)%float,
         (0 * (side.2 / 2 - - side.2 / 2) + - side.2 / 2)%float) ∧
    ∀ k, k < n →
      hydrogen !!! k
        = vsub (centre (1, 1) side 0)
            (vdiv (bond_vector L normal k) 2%float) ∧
      chlorine !!! k
        = vadd (centre (1, 1) side 0)
            (vdiv (bond_vector L normal k) 2%float).
Proof.
  intros Hn.
  destruct (make_liquid_rows n L (1, 1) side normal
              (replicate n (centre (1, 1) side 0).1)
              (replicate n (centre (1, 1) side 0).2))
    as (h & c & Hrun & _ & _ & Hrows).
  - apply broadcast_column_single.
  - apply broadcast_column_single.
  - apply length_replicate.
  - apply length_replicate.
  - done.
  - exists h, c. split; [done |]. split; [done |].
    intros k Hk. destruct (Hrows k Hk) as [Hh Hc].
    rewrite !lookup_total_replicate_2 in Hh, Hc by done.
    by rewrite <- surjective_pairing in Hh, Hc.
Qed.

Lemma make_liquid_single_point_witness :
  ∃ hydrogen chlorine,
    make_liquid 2 bond_length (1, 1) side_lengths
      [(1%float, 0%float); (0%float, 1%float)] = Ok (hydrogen, chlorine) ∧
    hydrogen !!! 1
      = vsub (centre (1, 1) side_lengths 0)
          (vdiv (bond_vector bond_length
                   [(1%float, 0%float); (0%float, 1%float)] 1) 2%float).
Proof.
  destruct (make_liquid_single_point 2 bond_length side_lengths
              [(1%float, 0%float); (0%float, 1%float)])
    as (h & c & Hrun & _ & Hrows); [reflexivity |].
  exists h, c. split; [exact Hrun |].
  destruct (Hrows 1) as [Hh _]; [lia | exact Hh].
Defined.

Lemma float_mul_nan_l x : (nan * x)%float = nan.
Proof.
  apply Prim2SF_inj. rewrite FloatAxioms.mul_spec. reflexivity.
Qed.

Lemma float_sub_nan_r x : (x - nan)%float = nan.
Proof.
  apply Prim2SF_inj. rewrite FloatAxioms.sub_spec.
  change (Prim2SF nan) with S754_nan. by destruct (Prim2SF x) as [| [] | |].
Qed.

Lemma float_add_nan_r x : (x + nan)%float = nan.
Proof.
  apply Prim2SF_inj. rewrite FloatAxioms.add_spec.
  change (Prim2SF nan) with S754_nan. by destruct (Prim2SF x) as [| [] | |].
Qed.

(** [X8] A sampled row of zeros has norm 0, and its division by the norm is
    nan: both atoms of that molecule are returned at (nan, nan). *)
Theorem make_liquid_zero_row n L grid side normal k :
  length normal = n → grid.1 * grid.2 = n →
  k < n → normal !!! k = (0%float, 0%float) →
  ∃ hydrogen chlorine,
    make_liquid n L grid side normal = Ok (hydrogen, chlorine) ∧
    hydrogen !!! k = (nan, nan) ∧ chlorine !!! k = (nan, nan).
Proof.
  intros Hn Hgrid Hk Hrow.
  set (xx := linspace (- side.1 / 2)%float (side.1 / 2)%float grid.1).
  set (yy := linspace (- side.2 / 2)%float (side.2 / 2)%float grid.2).
  assert (length xx = grid.1 ∧ length yy = grid.2) as [Hxx Hyy]
    by (split; apply length_linspace).
  destruct (make_liquid_rows n L grid side normal
              (ravel_mesh_x xx yy) (ravel_mesh_y xx yy))
    as (h & c & Hrun & _ & _ & Hrows).
  - apply broadcast_column_same. rewrite length_ravel_mesh_x. lia.
  - apply broadcast_column_same. rewrite length_ravel_mesh_y. lia.
  - rewrite length_ravel_mesh_x. lia.
  - rewrite length_ravel_mesh_y. lia.
  - done.
  - exists h, c. split; [done |].
    destruct (Hrows k Hk) as [-> ->].
    assert (vdiv (bond_vector L normal k) 2%float = (nan, nan)) as ->.
    { unfold bond_vector. rewrite Hrow.
      change (vdiv (0%float, 0%float) (norm (0%float, 0%float)))
        with (nan, nan).
      unfold vscale, vdiv. cbn [fst snd]. by rewrite float_mul_nan_l. }
    unfold vsub, vadd. cbn [fst snd].
    by rewrite !float_sub_nan_r, !float_add_nan_r.
Qed.

Lemma make_liquid_zero_row_witness :
  ∃ hydrogen chlorine,
    make_liquid 2 bond_length (2, 1) side_lengths
      [(1%float, 0%float); (0%float, 0%float)] = Ok (hydrogen, chlorine) ∧
    hydrogen !!! 1 = (nan, nan) ∧ chlorine !!! 1 = (nan, nan).
Proof.
  apply (make_liquid_zero_row 2 bond_length (2, 1) side_lengths
           [(1%float, 0%float); (0%float, 0%float)] 1);
    [reflexivity | reflexivity | lia | reflexivity].
Defined.
End make_liquid_more.

(** ** The integration loop: exceptions, frames left alone, one molecule *)

Section moldyn_more.
Import MolDyn.
Implicit Types (dot : vec → vec → float).
Implicit Types (h : history) (st : state) (t n T i : nat).

Lemma progress_period_small T : T < 20 → progress_period T = 0.
Proof.
  intros HT. do 20 (destruct T as [|T]; [by vm_compute |]). lia.
Qed.

(** The exception of the [if] that prints is the iteration's. *)
Lemma md_step_raises dot T n t st e :
  progress T t (output st) = Raise e → md_step dot T n t st = Raise e.
Proof.
  intros Hp. unfold md_step.
  destruct (spring_loop dot n t _ _ _ _) as [sH sCl].
  destruct (coulomb_loop n t _ _ _ _) as [cH cCl].
  by rewrite Hp.
Qed.

(** [X9] The loop raises a [ZeroDivisionError] exactly when it has a step 1 and
    [int(timesteps/20)] is 0, as it is for fewer than 20 time steps: step
    0 passes the test [t != 0], and the modulo is taken at step 1. *)
Theorem md_loop_zero_division dot T n st0 :
  state_shaped T n st0 →
  (md_loop dot T n st0 = Raise ZeroDivisionError
    ↔ 3 ≤ T ∧ progress_period T = 0) ∧
  (3 ≤ T → T < 20 → md_loop dot T n st0 = Raise ZeroDivisionError).
Proof.
  intros Hshape.
  assert (3 ≤ T → progress_period T = 0 →
          md_loop dot T n st0 = Raise ZeroDivisionError) as Hraise.
  { intros HT Hp. unfold md_loop, for_range.
    replace (T - 1) with (S (S (T - 3))) by lia. cbn [for_from].
    destruct (md_step_spec dot T n 0 st0 (output st0))
      as (st1 & -> & _ & Hout & _); [done | lia | done |].
    rewrite bind_Ok, (md_step_raises dot T n 1 st1 ZeroDivisionError); [done |].
    unfold progress. by rewrite Hp. }
  split; [split |].
  - intros Hrun. destruct (decide (3 ≤ T)) as [HT | HT].
    + destruct (decide (progress_period T = 0)) as [Hp | Hp]; [done |].
      destruct (md_loop_spec dot T n st0 Hshape (or_intror Hp))
        as (st & Hst & _).
      congruence.
    + destruct (md_loop_spec dot T n st0 Hshape) as (st & Hst & _); [lia |].
      congruence.
  - intros [HT Hp]. by apply Hraise.
  - intros HT Hlt. apply Hraise; [done |]. by apply progress_period_small.
Qed.

Lemma md_loop_zero_division_witness :
  md_loop dot_fused 10 2 short_run = Raise ZeroDivisionError.
Proof.
  destruct (md_loop_zero_division dot_fused 10 2 short_run) as [_ Hraise].
  - apply allocated_shaped; reflexivity.
  - apply Hraise; lia.
Defined.

(** [X10] The loop never writes frame 0 of the positions and velocities, the
    start of the integration, nor the last frame of the six arrays of
    accelerations: the forces at the last positions are not computed. *)
Theorem md_loop_untouched_frames dot T n st0 :
  state_shaped T n st0 → T ≤ 2 ∨ progress_period T ≠ 0 →
  ∃ st, md_loop dot T n st0 = Ok st ∧
    hget (position_H st) 0 = hget (position_H st0) 0 ∧
    hget (position_Cl st) 0 = hget (position_Cl st0) 0 ∧
    hget (velocity_H st) 0 = hget (velocity_H st0) 0 ∧
    hget (velocity_Cl st) 0 = hget (velocity_Cl st0) 0 ∧
    hget (acceleration_H st) (T - 1) = hget (acceleration_H st0) (T - 1) ∧
    hget (acceleration_Cl st) (T - 1) = hget (acceleration_Cl st0) (T - 1) ∧
    hget (coulomb_acc_H st) (T - 1) = hget (coulomb_acc_H st0) (T - 1) ∧
    hget (coulomb_acc_Cl st) (T - 1) = hget (coulomb_acc_Cl st0) (T - 1) ∧
    hget (spring_acc_H st) (T - 1) = hget (spring_acc_H st0) (T - 1) ∧
    hget (spring_acc_Cl st) (T - 1) = hget (spring_acc_Cl st0) (T - 1).
Proof.
  intros Hshape Hok.
  destruct (md_loop_frames dot T n st0 Hshape Hok)
    as (st & Hrun & _ & _ & _ & _ & (HpH & HpCl & HvH & HvCl) & Hlast).
  destruct (Hlast (T - 1)) as (HaH & HaCl & HcH & HcCl & HsH & HsCl); [lia |].
  exists st. split; [done |]. unfold hget.
  by rewrite HpH, HpCl, HvH, HvCl, HaH, HaCl, HcH, HcCl, HsH, HsCl.
Qed.

Lemma md_loop_untouched_frames_witness :
  ∃ st, md_loop dot_fused 21 2 two_molecules = Ok st ∧
    hget (velocity_H st) 0 = hget (velocity_H two_molecules) 0 ∧
    hget (acceleration_H st) 20 = hget (acceleration_H two_molecules) 20.
Proof.
  destruct (md_loop_untouched_frames dot_fused 21 2 two_molecules)
    as (st & Hrun & _ & _ & HvH & _ & HaH & _).
  - apply allocated_shaped; reflexivity.
  - right. vm_compute. lia.
  - exists st. split; [exact Hrun |]. split; [exact HvH | exact HaH].
Defined.

Lemma coulomb_acc_alone (pos_H pos_Cl : frame) :
  coulomb_acc 1 0 pos_H pos_Cl
  = ((0%float, 0%float), (0%float, 0%float)).
Proof.
  unfold coulomb_acc. cbn [seq fmap list_fmap Nat.eqb negb].
  by destruct pos_H, pos_Cl.
Qed.

(** [X11] A molecule alone: the mask of the Coulomb loop selects no row, the
    sums over no row are zeros, and the Coulomb accelerations are zero at
    every step, so that the acceleration is zero plus that of the bond. *)
Theorem lone_molecule_no_coulomb dot T st0 :
  state_shaped T 1 st0 → T ≤ 2 ∨ progress_period T ≠ 0 →
  ∃ st, md_loop dot T 1 st0 = Ok st ∧
    ∀ t, t < T - 1 →
      coulomb_acc_H st !!! t = [(0%float, 0%float)] ∧
      coulomb_acc_Cl st !!! t = [(0%float, 0%float)] ∧
      acceleration_H st !!! t
        = fadd [(0%float, 0%float)] (spring_acc_H st !!! t) ∧
      acceleration_Cl st !!! t
        = fadd [(0%float, 0%float)] (spring_acc_Cl st !!! t).
Proof.
  intros Hshape Hok.
  destruct (md_loop_spec dot T 1 st0 Hshape Hok)
    as (st & Hrun & _ & _ & _ & Hint).
  exists st. split; [done |]. intros t Ht.
  destruct (Hint t Ht) as (_ & _ & HcH & HcCl & HaH & HaCl & _).
  unfold coulomb_frames in HcH, HcCl. cbn [fst snd seq fmap list_fmap] in HcH, HcCl.
  rewrite coulomb_acc_alone in HcH, HcCl.
  rewrite HaH, HaCl, HcH, HcCl. done.
Qed.

Lemma lone_molecule_no_coulomb_witness :
  ∃ st, md_loop dot_fused 21 1 one_molecule = Ok st ∧
    coulomb_acc_H st !!! 3 = [(0%float, 0%float)].
Proof.
  destruct (lone_molecule_no_coulomb dot_fused 21 one_molecule)
    as (st & Hrun & Hst).
  - apply allocated_shaped; reflexivity.
  - right. vm_compute. lia.
  - exists st. split; [exact Hrun |].
    destruct (Hst 3) as (HcH & _); [lia | exact HcH].
Defined.

(** [X12] The cells of the simulation, one after the other, for any sample, on a
    grid of [num_molecules] points.  With no time step the assignment to
    frame 0 raises an [IndexError].  Else [make_liquid] returns, the
    arrays are allocated, and, unless [int(timesteps/20)] is 0 with more
    than two time steps, the loop returns after [timesteps - 1]
    iterations, every step integrated, with what it prints: frame 0 still
    holds the positions that [make_liquid] returned, and velocities of
    zero. *)
Theorem notebook_run dot T n grid side normal :
  length normal = n → grid.1 * grid.2 = n →
  ∃ hydrogen chlorine,
    make_liquid n bond_length grid side normal = Ok (hydrogen, chlorine) ∧
    (T = 0 → initial_state T n grid side normal = Raise IndexError) ∧
    (0 < T →
      initial_state T n grid side normal
      = Ok (allocated T n hydrogen chlorine)) ∧
    (0 < T → T ≤ 2 ∨ progress_period T ≠ 0 →
      ∃ st, md_loop dot T n (allocated T n hydrogen chlorine) = Ok st ∧
        state_shaped T n st ∧
        iterations st = T - 1 ∧
        output st = progress_lines T (T - 1) ++ [Summary n T] ∧
        (∀ t, t < T - 1 → integrated dot n t st) ∧
        position_H st !!! 0 = hydrogen ∧
        position_Cl st !!! 0 = chlorine ∧
        velocity_H st !!! 0 = replicate n (0%float, 0%float) ∧
        velocity_Cl st !!! 0 = replicate n (0%float, 0%float)).
Proof.
  intros Hn Hgrid.
  destruct (make_liquid_fits n bond_length grid side normal Hn Hgrid)
    as (h & c & Hrun & Hh & Hc).
  exists h, c. split; [done |]. split; [| split].
  - intros ->. unfold initial_state. by rewrite Hrun.
  - intros HT. unfold initial_state. rewrite Hrun, bind_Ok.
    by destruct T; [lia |].
  - intros HT Hok.
    destruct (md_loop_frames dot T n (allocated T n h c))
      as (st & Hst & Hsh & Hit & Hout & Hint
          & (HpH & HpCl & HvH & HvCl) & _).
    { by apply allocated_shaped. }
    { done. }
    exists st. split; [done |]. split; [done |]. split; [done |].
    split; [done |]. split; [done |].
    rewrite HpH, HpCl, HvH, HvCl. unfold allocated, zeros.
    cbn [position_H position_Cl velocity_H velocity_Cl].
    rewrite !list_lookup_total_insert_eq by (rewrite length_replicate; lia).
    by rewrite !lookup_total_replicate_2 by lia.
Qed.

Lemma notebook_run_witness :
  ∃ st, md_loop dot_fused timesteps num_molecules notebook_start = Ok st ∧
    iterations st = 4999 ∧
    position_H st !!! 0 = liquid.1.
Proof.
  destruct (notebook_run dot_fused timesteps num_molecules grid_dims
              side_lengths normal_along_x)
    as (h & c & Hliquid & _ & _ & Hloop); [reflexivity | reflexivity |].
  destruct Hloop as (st & Hrun & _ & Hit & _ & _ & HpH & _).
  - vm_compute. lia.
  - right. vm_compute. lia.
  - assert (liquid = (h, c)) as Hl by (unfold liquid; by rewrite Hliquid).
    exists st. unfold notebook_start. rewrite Hl.
    split; [exact Hrun |]. split; [exact Hit | exact HpH].
Defined.
End moldyn_more.
